(** * Underbar function decorators: [once], [memoize], [delay], [throttle]

    A shallow embedding of the decorator part of [src/underbar.js] together
    with the slice of the JavaScript run time those decorators rely on:
    values and their truthiness, property keys, property reads through the
    prototype of an object literal, exceptions, and the host's timer
    facility ([setTimeout], [clearTimeout], [Date.now]) driven by a virtual
    clock.

    Conventions of the embedding.
    - A JavaScript number is modelled by an integer ([Z]); the decorators
      only compare, add and print numbers, and on integers in the safe
      range these operations agree with the ones on [Z].
    - The decorated function [func] is an arbitrary function that may read
      and update a private state of type [St], and that either returns a
      value or throws.  It does not call back into the wrapper or into the
      timer facility.
    - Every execution of [func] is appended to a log kept in the host, with
      the time of the execution, the [this] value and the argument list. *)

From Stdlib Require Import ZArith Lia.
From stdpp Require Import base option list strings pretty gmap fin_maps.

Local Open Scope Z_scope.

(** ** JavaScript values *)

(** Primitive values, and references to objects.  [VObj id repr] is the
    object (function, array, plain object) with identity [id] whose string
    conversion yields [repr]. *)
Inductive value : Type :=
| VUndefined
| VNull
| VBool (b : bool)
| VNum (n : Z)
| VStr (s : string)
| VObj (id : nat) (repr : string).

#[global] Instance value_eq_dec : EqDecision value.
Proof. solve_decision. Defined.

(** ToBoolean: what [if (v)] and [!v] and [v && ...] test. *)
Definition truthy (v : value) : bool :=
  match v with
  | VUndefined | VNull => false
  | VBool b => b
  | VNum n => negb (n =? 0)
  | VStr s => match s with EmptyString => false | String _ _ => true end
  | VObj _ _ => true
  end.

(** ToPropertyKey: the string under which [o[v]] reads and writes. *)
Definition to_property_key (v : value) : string :=
  match v with
  | VUndefined => "undefined"
  | VNull => "null"
  | VBool true => "true"
  | VBool false => "false"
  | VNum n => pretty n
  | VStr s => s
  | VObj _ repr => repr
  end.

(** A built-in function object of the host. *)
Definition native (id : nat) (name : string) : value :=
  VObj id ("function " +:+ name +:+ "() { [native code] }").

(** The properties every object literal [{}] inherits. *)
Definition Object_prototype : gmap string value :=
  list_to_map
    [ ("constructor", native 1 "Object");
      ("hasOwnProperty", native 2 "hasOwnProperty");
      ("isPrototypeOf", native 3 "isPrototypeOf");
      ("propertyIsEnumerable", native 4 "propertyIsEnumerable");
      ("toLocaleString", native 5 "toLocaleString");
      ("toString", native 6 "toString");
      ("valueOf", native 7 "valueOf");
      ("__defineGetter__", native 8 "__defineGetter__");
      ("__defineSetter__", native 9 "__defineSetter__");
      ("__lookupGetter__", native 10 "__lookupGetter__");
      ("__lookupSetter__", native 11 "__lookupSetter__");
      ("__proto__", VObj 0 "[object Object]") ].

(** [o[k]] for an object created by [{}]: own properties first, then the
    prototype, [undefined] when neither has the key. *)
Definition prop_get (o : gmap string value) (k : string) : value :=
  match o !! k with
  | Some v => v
  | None => default VUndefined (Object_prototype !! k)
  end.

(** [o[k] = v], creating or overwriting the own property [k]. *)
Definition prop_set (o : gmap string value) (k : string) (v : value)
  : gmap string value :=
  <[k := v]> o.

(** [arguments[i]]. *)
Definition arguments_get (arguments : list value) (i : nat) : value :=
  default VUndefined (arguments !! i).

(** The key [_.memoize] files a call under: [arguments[0]], converted to a
    property key by the read [results[arguments[0]]]. *)
Definition cache_key (arguments : list value) : string :=
  to_property_key (arguments_get arguments 0).

(** How the evaluation of a call ends. *)
Inductive completion : Type :=
| Normal (v : value)
| Throw (e : value).

#[global] Instance completion_eq_dec : EqDecision completion.
Proof. solve_decision. Defined.

(** Who started an execution of [func]: the caller of a wrapper, within the
    call, or the timer facility running the callback of timer [id]. *)
Inductive origin : Type :=
| Sync
| Timer (id : nat).

#[global] Instance origin_eq_dec : EqDecision origin.
Proof. solve_decision. Defined.

(** One execution of [func]. *)
Record invocation : Type := Invocation {
  inv_time : Z;
  inv_origin : origin;
  inv_this : value;
  inv_args : list value
}.

#[global] Instance invocation_eq_dec : EqDecision invocation.
Proof. solve_decision. Defined.

(** The closures handed to [setTimeout] by this library, with the variables
    they capture by value.  [DelayCb args] is the callback of [_.delay];
    [TrailingCb now] is the callback of the wrapper made by [_.throttle],
    which captures the [now] of the call that scheduled it. *)
Inductive callback : Type :=
| DelayCb (args : list value)
| TrailingCb (now : Z).

Record timer_entry : Type := TimerEntry {
  due : Z;
  handler : callback
}.

Definition is_trailing (e : timer_entry) : bool :=
  match handler e with
  | TrailingCb _ => true
  | DelayCb _ => false
  end.

(** ** [_.each] and [_.map] on an array or an [arguments] object

    For an array [_.each] runs the index loop, for an [arguments] object the
    [for ... in] loop, which visits the indices in ascending order; both
    visit the elements from left to right. *)
Definition each {A Acc : Type} (collection : list A)
    (iterator : Acc -> A -> Acc) (acc : Acc) : Acc :=
  foldl iterator acc collection.

(** [_.map]: [results = []], then [results.push(iterator(item))] for each. *)
Definition map {A B : Type} (collection : list A) (iterator : A -> B)
  : list B :=
  each collection (fun results item => results ++ [iterator item]) [].

(** [array.slice(n)] for [n >= 0]. *)
Definition slice {A : Type} (array : list A) (n : nat) : list A :=
  drop n array.

(** The timer facility of a browser takes the delay of [setTimeout] as a
    32-bit signed integer: the number is wrapped into the range from
    [-2^31] up to, but not including, [2^31]. *)
Definition to_int32 (z : Z) : Z :=
  (z + 2147483648) mod 4294967296 - 2147483648.

Section Decorators.

(** The private state of the decorated function, the function itself, and
    the [this] value the timer facility gives to the callbacks it runs. *)
Context {St : Type}.
Variable func : St -> value -> list value -> completion * St.
Variable timer_this : value.

(** ** The host: the state of [func], the log, the clock and the timers *)
Record host : Type := Host {
  fstate : St;
  calls : list invocation;
  clock : Z;
  next_id : nat;
  pending : gmap nat timer_entry
}.

(** A host in which nothing has happened yet.  Timer identifiers are
    positive. *)
Definition fresh_host (s : St) (t : Z) : host :=
  {| fstate := s; calls := []; clock := t; next_id := 1; pending := ∅ |}.

(** The host after an execution of [func] that left its state at [s']. *)
Definition logged (src : origin) (this : value) (args : list value) (s' : St)
    (h : host) : host :=
  {| fstate := s';
     calls := calls h ++ [Invocation (clock h) src this args];
     clock := clock h;
     next_id := next_id h;
     pending := pending h |}.

(** [func.apply(this, args)]: run [func], log the execution. *)
Definition func_apply (src : origin) (this : value) (args : list value)
    (h : host) : completion * host :=
  let '(c, s') := func (fstate h) this args in
  (c, logged src this args s' h).

(** [setTimeout(cb, delay)]: the delay is taken as a 32-bit signed integer
    and a negative one counts as zero; the callback may run once the clock
    has reached [due]. *)
Definition setTimeout (cb : callback) (delay : Z) (h : host) : nat * host :=
  (next_id h,
   {| fstate := fstate h;
      calls := calls h;
      clock := clock h;
      next_id := S (next_id h);
      pending := <[next_id h := TimerEntry
                                 (clock h + Z.max 0 (to_int32 delay)) cb]>
                   (pending h) |}).

(** [clearTimeout(t)]: nothing happens when [t] is [undefined] or names no
    pending timer. *)
Definition clearTimeout (t : option nat) (h : host) : host :=
  match t with
  | Some id =>
      {| fstate := fstate h;
         calls := calls h;
         clock := clock h;
         next_id := next_id h;
         pending := delete id (pending h) |}
  | None => h
  end.

(** ** [_.once] *)

(** The variables of the closure made by [_.once]. *)
Record once_env : Type := OnceEnv {
  alreadyCalled : bool;
  result : value
}.

(** [var alreadyCalled = false; var result;] *)
Definition once : once_env :=
  {| alreadyCalled := false; result := VUndefined |}.

(** The function returned by [_.once], called with [this] and
    [arguments]. *)
Definition once_call (env : once_env) (this : value) (arguments : list value)
    (h : host) : completion * once_env * host :=
  if negb (alreadyCalled env) then
    match func_apply Sync this arguments h with
    | (Normal v, h') =>
        let env' := {| alreadyCalled := true; result := v |} in
        (Normal (result env'), env', h')
    | (Throw e, h') => (Throw e, env, h')
    end
  else (Normal (result env), env, h).

(** ** [_.memoize] *)

(** [var results = {}] *)
Definition memoize : gmap string value := ∅.

(** The function returned by [_.memoize]. *)
Definition memoize_call (results : gmap string value) (this : value)
    (arguments : list value) (h : host)
  : completion * gmap string value * host :=
  let key := cache_key arguments in
  if negb (truthy (prop_get results key)) then
    match func_apply Sync this arguments h with
    | (Normal v, h') =>
        let results' := prop_set results key v in
        (Normal (prop_get results' key), results', h')
    | (Throw e, h') => (Throw e, results, h')
    end
  else (Normal (prop_get results key), results, h).

(** ** [_.delay] *)

(** [_.delay(func, wait, ...rest)]; [func_ref] is the function object
    passed as first argument, which denotes [func]. *)
Definition delay (func_ref : value) (wait : Z) (rest : list value) (h : host)
  : value * host :=
  let arguments := func_ref :: VNum wait :: rest in
  let args := slice (map arguments (fun item => item)) 2 in
  let '(_, h') := setTimeout (DelayCb args) wait h in
  (VUndefined, h').

(** ** [_.throttle] *)

(** The variables of the closure made by [_.throttle]; [None] is
    [undefined]. *)
Record throttle_env : Type := ThrottleEnv {
  lastTrigger : option Z;
  timer : option nat;
  results : value
}.

(** [var lastTrigger; var timer; var results;] *)
Definition throttle : throttle_env :=
  {| lastTrigger := None; timer := None; results := VUndefined |}.

(** [lastTrigger && now < lastTrigger + wait]: an [undefined] and a zero
    [lastTrigger] are both falsy. *)
Definition cooling (lastTrigger : option Z) (now wait : Z) : bool :=
  match lastTrigger with
  | Some t => truthy (VNum t) && (now <? t + wait)
  | None => false
  end.

(** The function returned by [_.throttle(func, wait)].  It has no [return]
    statement: a call that completes normally yields [undefined]. *)
Definition throttle_call (wait : Z) (env : throttle_env) (this : value)
    (arguments : list value) (h : host)
  : completion * throttle_env * host :=
  let now := clock h in
  if cooling (lastTrigger env) now wait then
    let h1 := clearTimeout (timer env) h in
    let '(id, h2) := setTimeout (TrailingCb now) wait h1 in
    (Normal VUndefined,
     {| lastTrigger := lastTrigger env; timer := Some id;
        results := results env |},
     h2)
  else
    let env1 := {| lastTrigger := Some now; timer := timer env;
                   results := results env |} in
    match func_apply Sync this arguments h with
    | (Normal v, h') =>
        (Normal VUndefined,
         {| lastTrigger := lastTrigger env1; timer := timer env1;
            results := v |},
         h')
    | (Throw e, h') => (Throw e, env1, h')
    end.

(** ** Timer callbacks

    The facility calls a callback with [timer_this] and without arguments,
    so inside the callback [this] is [timer_this] and [arguments] is
    empty.  An exception thrown by a callback reaches no caller. *)
Definition run_callback (id : nat) (cb : callback) (env : throttle_env)
    (h : host) : throttle_env * host :=
  let this := timer_this in
  let arguments : list value := [] in
  match cb with
  | DelayCb args =>
      let '(_, h') := func_apply (Timer id) this args h in
      (env, h')
  | TrailingCb now =>
      let env1 := {| lastTrigger := Some now; timer := timer env;
                     results := results env |} in
      match func_apply (Timer id) this arguments h with
      | (Normal v, h') =>
          ({| lastTrigger := lastTrigger env1; timer := timer env1;
              results := v |},
           h')
      | (Throw _, h') => (env1, h')
      end
  end.

(** ** The event loop

    One wrapper [g = _.throttle(func, wait)] lives in a host; callers call
    [g] and [_.delay] (with a reference to [func]), time passes, and the
    timer facility runs callbacks that are due. *)
Inductive event : Type :=
| Call (this : value) (arguments : list value)
| Delay (func_ref : value) (wait : Z) (rest : list value)
| Fire (id : nat)
| Tick (dt : Z).

Definition system : Type := throttle_env * host.

Definition advance (dt : Z) (h : host) : host :=
  {| fstate := fstate h;
     calls := calls h;
     clock := clock h + dt;
     next_id := next_id h;
     pending := pending h |}.

Definition remove_timer (id : nat) (h : host) : host :=
  {| fstate := fstate h;
     calls := calls h;
     clock := clock h;
     next_id := next_id h;
     pending := delete id (pending h) |}.

(** One turn; [None] when the event cannot happen: a timer that is not
    pending or not yet due does not fire, and the clock does not run
    backwards. *)
Definition step (wait : Z) (ev : event) (sys : system) : option system :=
  let '(env, h) := sys in
  match ev with
  | Call this arguments =>
      let '(_, env', h') := throttle_call wait env this arguments h in
      Some (env', h')
  | Delay func_ref w rest =>
      let '(_, h') := delay func_ref w rest h in
      Some (env, h')
  | Fire id =>
      match pending h !! id with
      | Some e =>
          if due e <=? clock h
          then Some (run_callback id (handler e) env (remove_timer id h))
          else None
      | None => None
      end
  | Tick dt =>
      if 0 <=? dt then Some (env, advance dt h) else None
  end.

Fixpoint run (wait : Z) (evs : list event) (sys : system) : option system :=
  match evs with
  | [] => Some sys
  | ev :: evs' =>
      match step wait ev sys with
      | Some sys' => run wait evs' sys'
      | None => None
      end
  end.

(** A sequence of calls to the wrapper made by [_.once], with the
    completion of each call. *)
Fixpoint once_calls (env : once_env) (h : host)
    (cs : list (value * list value))
  : list completion * once_env * host :=
  match cs with
  | [] => ([], env, h)
  | (this, arguments) :: cs' =>
      let '(c, env', h') := once_call env this arguments h in
      let '(rs, env'', h'') := once_calls env' h' cs' in
      (c :: rs, env'', h'')
  end.

(** A sequence of calls to the wrapper made by [_.memoize]. *)
Fixpoint memoize_calls (results : gmap string value) (h : host)
    (cs : list (value * list value))
  : list completion * gmap string value * host :=
  match cs with
  | [] => ([], results, h)
  | (this, arguments) :: cs' =>
      let '(c, results', h') := memoize_call results this arguments h in
      let '(rs, results'', h'') := memoize_calls results' h' cs' in
      (c :: rs, results'', h'')
  end.

(** One turn of the event loop, case by case: the relation that [step]
    computes. *)
Inductive turn (wait : Z) (env : throttle_env) (h : host)
  : event -> throttle_env -> host -> Prop :=
| turn_cooling this args :
    cooling (lastTrigger env) (clock h) wait = true ->
    turn wait env h (Call this args)
      {| lastTrigger := lastTrigger env; timer := Some (next_id h);
         results := results env |}
      (setTimeout (TrailingCb (clock h)) wait (clearTimeout (timer env) h)).2
| turn_immediate this args c s' :
    cooling (lastTrigger env) (clock h) wait = false ->
    func (fstate h) this args = (c, s') ->
    turn wait env h (Call this args)
      {| lastTrigger := Some (clock h); timer := timer env;
         results := match c with Normal v => v | Throw _ => results env end |}
      (logged Sync this args s' h)
| turn_delay func_ref w rest :
    turn wait env h (Delay func_ref w rest) env
      (setTimeout (DelayCb rest) w h).2
| turn_fire_delay id t args c s' :
    pending h !! id = Some (TimerEntry t (DelayCb args)) ->
    t <= clock h ->
    func (fstate h) timer_this args = (c, s') ->
    turn wait env h (Fire id) env
      (logged (Timer id) timer_this args s' (remove_timer id h))
| turn_fire_trailing id t now c s' :
    pending h !! id = Some (TimerEntry t (TrailingCb now)) ->
    t <= clock h ->
    func (fstate h) timer_this [] = (c, s') ->
    turn wait env h (Fire id)
      {| lastTrigger := Some now; timer := timer env;
         results := match c with Normal v => v | Throw _ => results env end |}
      (logged (Timer id) timer_this [] s' (remove_timer id h))
| turn_tick dt :
    0 <= dt ->
    turn wait env h (Tick dt) env (advance dt h).

(** ** Observations on hosts and logs *)

(** The pending timers that hold the trailing callback of the wrapper made
    by [_.throttle]. *)
Definition trailing_timers (h : host) : gmap nat timer_entry :=
  filter (fun p => is_trailing p.2 = true) (pending h).



(** Timer identifiers are handed out in increasing order, so those in use
    lie below [next_id]; and a pending trailing timer is the one the
    variable [timer] of the wrapper names. *)
Record well_formed (sys : system) : Prop := WellFormed {
  wf_pending : forall id e,
    pending sys.2 !! id = Some e -> (id < next_id sys.2)%nat;
  wf_log : forall i id,
    i ∈ calls sys.2 -> inv_origin i = Timer id -> (id < next_id sys.2)%nat;
  wf_timer : forall id,
    timer sys.1 = Some id -> (id < next_id sys.2)%nat;
  wf_trailing : forall id e,
    pending sys.2 !! id = Some e -> is_trailing e = true ->
    timer sys.1 = Some id
}.

End Decorators.

Arguments host : clear implicits.
Arguments system : clear implicits.

(** Every two executions in a log, which is in the order of time, lie at
    least [w] apart. *)
Definition spaced (w : Z) (log : list invocation) : Prop :=
  forall (i j : nat) (a b : invocation),
    (i < j)%nat -> log !! i = Some a -> log !! j = Some b ->
    w <= inv_time b - inv_time a.

#[global] Instance event_eq_dec : EqDecision event.
Proof. solve_decision. Defined.

(** ** Collections

    Arrays are lists of values.  The iterators handed to the collection
    functions are pure functions of their arguments; the variables a source
    closure assigns to ([result], [passed], [uniques], [accumulator], ...)
    are the accumulator that [each] threads through the loop. *)

(** [a === b]: primitives are compared by value, objects by identity. *)
Definition strict_equals (a b : value) : bool :=
  match a, b with
  | VObj i _, VObj j _ => bool_decide (i = j)
  | VObj _ _, _ | _, VObj _ _ => false
  | _, _ => bool_decide (a = b)
  end.

(** [array[i]] for a number [i]: [undefined] outside the array. *)
Definition array_get (array : list value) (i : Z) : value :=
  if i <? 0 then VUndefined else default VUndefined (array !! Z.to_nat i).

(** How [slice] reads an index against the length: a negative index counts
    from the end, and both ends are clamped to the array. *)
Definition relative_index (len k : Z) : Z :=
  if k <? 0 then Z.max (len + k) 0 else Z.min k len.

(** [array.slice(start, end)], and [array.slice(start)] when [end] is
    [None]. *)
Definition array_slice {A : Type} (array : list A) (start : Z)
    (end_ : option Z) : list A :=
  let len := Z.of_nat (length array) in
  let k := relative_index len start in
  let final := match end_ with
               | Some e => relative_index len e
               | None => len
               end in
  take (Z.to_nat (final - k)) (drop (Z.to_nat k) array).

(** What [_.first] and [_.last] return: one element, or an array. *)
Inductive selection : Type :=
| Element (v : value)
| Elements (l : list value).

(** [_.first(array, n)]; [n] is [None] for [undefined]. *)
Definition first (array : list value) (n : option Z) : selection :=
  match n with
  | None => Element (array_get array 0)
  | Some n => Elements (array_slice array 0 (Some n))
  end.

(** [_.last(array, n)]. *)
Definition last (array : list value) (n : option Z) : selection :=
  match n with
  | None => Element (array_get array (Z.of_nat (length array) - 1))
  | Some n => Elements (if n =? 0 then [] else array_slice array (- n) None)
  end.

(** [_.each] on an array, for an iterator that also uses the index:
    [for (var i = 0; i < collection.length; i++)]. *)
Definition each_indexed {A Acc : Type} (collection : list A)
    (iterator : Acc -> A -> Z -> Acc) (acc : Acc) : Acc :=
  (foldl (fun st item => (iterator st.1 item st.2, st.2 + 1)) (acc, 0)
     collection).1.

(** [_.indexOf(array, target)] *)
Definition indexOf (array : list value) (target : value) : Z :=
  each_indexed array
    (fun result item index =>
       if strict_equals item target && (result =? -1) then index else result)
    (-1).

(** [_.filter(collection, test)] *)
Definition filter (collection : list value) (test : value -> value)
  : list value :=
  each collection
    (fun passed item => if truthy (test item) then passed ++ [item] else passed)
    [].

(** [_.reject(collection, test)] *)
Definition reject (collection : list value) (test : value -> value)
  : list value :=
  filter collection (fun item => VBool (negb (truthy (test item)))).

(** [_.uniq(array)] *)
Definition uniq (array : list value) : list value :=
  each array
    (fun uniques item =>
       if indexOf uniques item =? -1 then uniques ++ [item] else uniques)
    [].

(** [_.pluck(collection, key)]; [get item key] is [item[key]] for the kind
    of items in the collection. *)
Definition pluck {A K : Type} (get : A -> K -> value) (collection : list A)
    (key : K) : list value :=
  map collection (fun item => get item key).

(** [_.reduce(collection, iterator, accumulator)]; the iterator receives
    the accumulator, the item and the index (an iterator that reads its
    fourth argument, the collection, has it in its closure). *)
Definition reduce (collection : list value)
    (iterator : value -> value -> Z -> value) (accumulator : value) : value :=
  each_indexed collection
    (fun accumulator item index =>
       if strict_equals accumulator VUndefined then item
       else iterator accumulator item index)
    accumulator.

(** [_.contains(collection, target)] *)
Definition contains (collection : list value) (target : value) : value :=
  reduce collection
    (fun wasFound item _ =>
       if truthy wasFound then VBool true
       else VBool (strict_equals item target))
    (VBool false).

(** [_.every(collection, iterator)]; [iterator] is [None] when the caller
    passes none. *)
Definition every (collection : list value) (iterator : option (value -> value))
  : value :=
  reduce collection
    (fun wasTrue value _ =>
       if truthy wasTrue then
         match iterator with
         | Some iterator => if truthy (iterator value) then VBool true
                            else VBool false
         | None => if truthy value then VBool true else VBool false
         end
       else VBool false)
    (VBool true).

(** [_.some(collection, iterator)] *)
Definition some (collection : list value) (iterator : option (value -> value))
  : value :=
  VBool (negb (truthy
    (every collection
       (Some (fun value =>
                match iterator with
                | Some iterator => VBool (negb (truthy (iterator value)))
                | None => VBool (negb (truthy value))
                end))))).

(** [array[index] = x] on an array whose elements are of type [A] or
    [undefined] ([None]): a write beyond the end extends the array and
    leaves holes, which read as [undefined]. *)
Definition array_write {A : Type} (array : list (option A)) (index : nat)
    (x : A) : list (option A) :=
  if decide (index < length array)%nat then <[index := Some x]> array
  else array ++ replicate (index - length array) None ++ [Some x].

(** [_.zip(...arrays)]: the loop runs [index] up to [arguments.length], the
    number of arrays, and fills [output[index]] with what [_.pluck] reads
    at [index] in every array. *)
Definition zip (arguments : list (list value))
  : list (option (list value)) :=
  foldl
    (fun output index =>
       array_write output index
         (pluck (fun (item : list value) (key : nat) =>
                   array_get item (Z.of_nat key))
            arguments index))
    [] (seq 0 (length arguments)).

(** An array that may hold arrays: [Leaf v] is an element [v] for which
    [Array.isArray] is false, [Arr items] an element that is an array. *)
#[warnings="-register-all"]
Inductive nested : Type :=
| Leaf (v : value)
| Arr (items : list nested).

(** The body of the loop of [deepFlatten] for one element, given [flat]:
    recurse into an array, push anything else. *)
Fixpoint deepFlatten_item (x : nested) (flat : list value) : list value :=
  match x with
  | Leaf v => flat ++ [v]
  | Arr items => foldl (fun flat y => deepFlatten_item y flat) flat items
  end.

(** [deepFlatten(nestedArray)] with the variable [flat] it pushes to. *)
Definition deepFlatten (nestedArray : list nested) (flat : list value)
  : list value :=
  foldl (fun flat y => deepFlatten_item y flat) flat nestedArray.

(** [_.flatten(nestedArray)] *)
Definition flatten (nestedArray : list nested) : list value :=
  deepFlatten nestedArray [].

(** The inner loop of [_.intersection] for [item]: [j] runs over the
    arrays after the first and stops at the first one that lacks [item];
    the result is [j] at the exit of the loop. *)
Fixpoint intersection_scan (others : list (list value)) (item : value)
    (j : nat) : nat :=
  match others with
  | [] => j
  | array :: others' =>
      if negb (truthy (contains array item)) then j
      else intersection_scan others' item (S j)
  end.

(** [_.intersection(...arrays)]; [None] is the [TypeError] of reading
    [firstArray.length] when there is no argument. *)
Definition intersection (arguments : list (list value))
  : option (list value) :=
  let numArrays := length arguments in
  match arguments with
  | [] => None
  | firstArray :: _ =>
      Some (foldl
              (fun commons item =>
                 if truthy (contains commons item) then commons
                 else
                   let j := intersection_scan (drop 1 arguments) item 1 in
                   if decide (j = numArrays) then commons ++ [item]
                   else commons)
              [] firstArray)
  end.

(** [_.difference(array, ...others)] *)
Definition difference (array : list value) (others : list nested)
  : list value :=
  let arguments := Arr (Leaf <$> array) :: others in
  let allTheRest := flatten (slice arguments 1) in
  filter array
    (fun value => VBool (negb (truthy (contains allTheRest value)))).

(** [array[index] = x] on an array of values: the holes a write beyond the
    end leaves read as [undefined]. *)
Definition array_assign (array : list value) (index : nat) (x : value)
  : list value :=
  if decide (index < length array)%nat then <[index := x]> array
  else array ++ replicate (index - length array) VUndefined ++ [x].

(** [array.pop()]: the last element ([undefined] for an empty array) and
    the array without it. *)
Definition array_pop (array : list value) : value * list value :=
  (array_get array (Z.of_nat (length array) - 1),
   take (length array - 1) array).

(** The loop of [_.shuffle], entered with [last = n - 1]; [pick last] is
    the value of [Math.floor(Math.random() * last)] in the iteration for
    [last]. *)
Fixpoint shuffle_loop (pick : nat -> nat) (n : nat)
    (clonedArary shuffled : list value) : list value :=
  match n with
  | O => shuffled
  | S last =>
      let temp := array_get clonedArary (Z.of_nat last) in
      let randomIndex := pick last in
      let c1 := array_assign clonedArary last
                  (array_get clonedArary (Z.of_nat randomIndex)) in
      let c2 := array_assign c1 randomIndex temp in
      let '(x, c3) := array_pop c2 in
      shuffle_loop pick last c3 (shuffled ++ [x])
  end.

(** [_.shuffle(array)] *)
Definition shuffle (pick : nat -> nat) (array : list value) : list value :=
  shuffle_loop pick (length array) (array_slice array 0 None) [].

(** Some element of [array] is [===] to [x]. *)
Definition has_element (array : list value) (x : value) : bool :=
  existsb (fun item => strict_equals item x) array.

(** No two positions of [array] hold values that are [===]. *)
Definition pairwise_distinct (array : list value) : Prop :=
  forall (i j : nat) (x y : value),
    (i < j)%nat -> array !! i = Some x -> array !! j = Some y ->
    strict_equals x y = false.

(** The test an optional iterator stands for in [_.every] and [_.some]:
    the iterator, or the value itself when there is none. *)
Definition test_of (iterator : option (value -> value)) (x : value) : bool :=
  match iterator with
  | Some iterator => truthy (iterator x)
  | None => truthy x
  end.

(** Row [index] of the result of [_.zip]: what each array holds at
    [index], [undefined] where an array is too short. *)
Definition zip_row (arguments : list (list value)) (index : nat)
  : list value :=
  (fun item => array_get item (Z.of_nat index)) <$> arguments.

(** ** Objects

    The target of [_.extend] and [_.defaults] is a plain object, given by
    its own properties; a source is given by the pairs of key and value
    that [for (var key in collection)] visits, in the order of the
    visit. *)

(** [_.each] on an object: [iterator(collection[key], key)] for every key
    the [for ... in] loop visits. *)
Definition each_object {Acc : Type} (collection : list (string * value))
    (iterator : Acc -> value -> string -> Acc) (acc : Acc) : Acc :=
  foldl (fun acc p => iterator acc p.2 p.1) acc collection.

(** [obj[key] = value] on a plain object.  The key ["__proto__"] is special:
    a plain object inherits it as a setter, so the assignment changes the
    prototype instead of an own property; that case is [None] and lies
    outside what is modelled here. *)
Definition assign (obj : gmap string value) (key : string) (val : value)
  : option (gmap string value) :=
  if decide (key = "__proto__") then None else Some (prop_set obj key val).

(** [obj.hasOwnProperty(key)] on a plain object: the inherited built-in
    answers whether [key] is an own property.  When [obj] has an own
    property named ["hasOwnProperty"], the call reaches that value instead
    of the built-in; that case is [None] and lies outside what is modelled
    here. *)
Definition hasOwnProperty (obj : gmap string value) (key : string)
  : option bool :=
  match obj !! "hasOwnProperty" with
  | None => Some (bool_decide (is_Some (obj !! key)))
  | Some _ => None
  end.

(** [_.extend(obj, ...sources)]: the own properties of [obj] after the
    call, which returns [obj]. *)
Definition extend (obj : gmap string value)
    (sources : list (list (string * value)))
  : option (gmap string value) :=
  let arguments := map_to_list obj :: sources in
  let objects := slice (map arguments (fun item => item)) 1 in
  each objects
    (fun obj item =>
       each_object item
         (fun obj value key => obj ← obj; assign obj key value)
         obj)
    (Some obj).

(** [_.defaults(obj, ...sources)] *)
Definition defaults (obj : gmap string value)
    (sources : list (list (string * value)))
  : option (gmap string value) :=
  let arguments := map_to_list obj :: sources in
  let objects := slice (map arguments (fun item => item)) 1 in
  each objects
    (fun obj item =>
       each_object item
         (fun obj value key =>
            obj ← obj;
            own ← hasOwnProperty obj key;
            if negb own then assign obj key value else Some obj)
         obj)
    (Some obj).

(** The keys a call of [_.extend] or [_.defaults] assigns or tests. *)
Definition source_keys (sources : list (list (string * value)))
  : list string :=
  fst <$> concat sources.

(** ** Observations on runs of the decorators *)

(** The executions in a log whose arguments [_.memoize] files under the
    key [k]. *)
Definition computed_for (k : string) (log : list invocation)
  : list invocation :=
  base.filter (fun i => cache_key (inv_args i) = k) log.

(** A caller asks for an execution of [func]: through the throttled wrapper
    or through [_.delay]. *)
Definition is_request (ev : event) : bool :=
  match ev with
  | Call _ _ | Delay _ _ _ => true
  | Fire _ | Tick _ => false
  end.

(** The number of requests among the events. *)
Definition requests (evs : list event) : nat :=
  length (base.filter (fun ev => is_request ev = true) evs).

(** Calls of the throttled wrapper, each followed by a pause: a request is
    the [this], the arguments and the pause. *)
Definition calls_apart (reqs : list (value * list value * Z)) : list event :=
  reqs ≫= (fun r => [Call r.1.1 r.1.2; Tick r.2]).

(** ** Iterators and functions used in the examples *)

(** [function (total, number) { return total + number; }] on numbers; for
    other values the sketch returns [0]. *)
Definition add_numbers (total number : value) (index : Z) : value :=
  match total, number with
  | VNum a, VNum b => VNum (a + b)
  | _, _ => VNum 0
  end.

(** A function that counts its executions in its state, throws in the
    first two and returns the count from the third on. *)
Definition flaky (s : nat) (this : value) (args : list value)
  : completion * nat :=
  if (s <? 2)%nat then (Throw (VStr "not yet"), S s)
  else (Normal (VNum (Z.of_nat s)), S s).

(** ** Functions used in the examples *)

(** [function () { return v; }] *)
Definition returning (v : value)
  : unit -> value -> list value -> completion * unit :=
  fun s _ _ => (Normal v, s).

(** [function () { throw e; }] *)
Definition throwing (e : value)
  : unit -> value -> list value -> completion * unit :=
  fun s _ _ => (Throw e, s).

(** [function (x) { return x; }] *)
Definition first_argument : unit -> value -> list value -> completion * unit :=
  fun s _ args => (Normal (arguments_get args 0), s).

(** The wrapper is called as a plain function: [this] is [undefined]. *)
Definition plain_call (arguments : list value) : value * list value :=
  (VUndefined, arguments).

(** The [this] of timer callbacks in a browser. *)
Definition window : value := VObj 12 "[object Window]".

(** ** Scenarios *)

(** With [wait = 100]: a call, a second call 1 ms later, a third call 100 ms
    after the first, and the timer of the second call firing when due. *)
Definition late_call_then_timer : list event :=
  [ Call VUndefined [VStr "a"]; Tick 1;
    Call VUndefined [VStr "b"]; Tick 99;
    Call VUndefined [VStr "c"]; Tick 1;
    Fire 1 ].

(** With [wait = 100]: a call, a second call 99 ms later, the timer of the
    second call firing when due, and a third call at that same time. *)
Definition call_after_trailing : list event :=
  [ Call VUndefined [VStr "a"]; Tick 99;
    Call VUndefined [VStr "b"]; Tick 100;
    Fire 1;
    Call VUndefined [VStr "c"] ].

(** With [wait = 100]: [g("a")], then [g("b")] 10 ms later, then the timer
    of the second call firing when due. *)
Definition two_calls_then_timer : list event :=
  [ Call VUndefined [VStr "a"]; Tick 10;
    Call VUndefined [VStr "b"]; Tick 100;
    Fire 1 ].

(** With [wait = 100]: a call, and a second call 1 ms later. *)
Definition call_in_cooldown : list event :=
  [ Call VUndefined [VStr "a"]; Tick 1; Call VUndefined [VStr "b"] ].

(** The system after [call_in_cooldown], started at time 1000 with
    [first_argument] as the throttled function. *)
Definition after_call_in_cooldown : system unit :=
  ({| lastTrigger := Some 1000; timer := Some 1%nat; results := VStr "a" |},
   {| fstate := tt;
      calls := [Invocation 1000 Sync VUndefined [VStr "a"]];
      clock := 1001;
      next_id := 2;
      pending := {[ 1%nat := TimerEntry 1101 (TrailingCb 1001) ]} |}).



(** [g("toString"); g("toString")] for a memoized function. *)
Definition inherited_key_twice : list (value * list value) :=
  [ plain_call [VStr "toString"]; plain_call [VStr "toString"] ].

(** [g(5); g(5)] for a memoized function. *)
Definition same_key_twice : list (value * list value) :=
  [ plain_call [VNum 5]; plain_call [VNum 5] ].

(** ** Facts about the run time *)

Lemma map_spec {A B : Type} (iterator : A -> B) (collection : list A) :
  map collection iterator = iterator <$> collection.
Proof.
  unfold map, each.
  enough (forall acc, foldl (fun results item => results ++ [iterator item]) acc collection
                      = acc ++ (iterator <$> collection)) as H by apply (H []).
  induction collection as [|x l IH]; intros acc; simpl.
  - by rewrite app_nil_r.
  - rewrite IH. by rewrite <- app_assoc.
Qed.

Lemma prop_get_set_eq (o : gmap string value) (k : string) (v : value) :
  prop_get (prop_set o k v) k = v.
Proof. unfold prop_get, prop_set. by rewrite lookup_insert_eq. Qed.

Lemma prop_get_set_ne (o : gmap string value) (k k' : string) (v : value) :
  k <> k' -> prop_get (prop_set o k v) k' = prop_get o k'.
Proof. intros Hne. unfold prop_get, prop_set. by rewrite lookup_insert_ne. Qed.

Section OnceFacts.

Context {St : Type}.
Variable func : St -> value -> list value -> completion * St.

Lemma func_apply_eq (src : origin) (this : value) (args : list value)
    (h : host St) (c : completion) (s' : St) :
  func (fstate h) this args = (c, s') ->
  func_apply func src this args h = (c, logged src this args s' h).
Proof. intros Hf. unfold func_apply. by rewrite Hf. Qed.

(** Once the flag is set the wrapper answers from [result] and leaves the
    host alone, whatever the arguments. *)
Lemma once_calls_latched (v : value) (h : host St) (cs : list (value * list value)) :
  once_calls func {| alreadyCalled := true; result := v |} h cs
  = (replicate (length cs) (Normal v),
     {| alreadyCalled := true; result := v |}, h).
Proof.
  induction cs as [|[this args] cs IH]; simpl; [done|].
  by rewrite IH.
Qed.

(** C4. For every function [func] whose execution in the first call of
    [g = once(func)] returns a value [v]: the first call runs [func] with
    the caller's [this] and arguments and returns [v]; every later call,
    whatever its [this] and arguments, returns [v] as well; and over the
    whole sequence of calls [func] has run exactly one time, the log having
    grown by that one execution. *)
Theorem once_first_call_wins (h : host St) (this : value) (args : list value)
    (cs : list (value * list value)) (v : value) (s' : St) :
  func (fstate h) this args = (Normal v, s') ->
  once_calls func once h ((this, args) :: cs)
  = (replicate (S (length cs)) (Normal v),
     {| alreadyCalled := true; result := v |},
     logged Sync this args s' h).
Proof.
  intros Hf. cbn [once_calls].
  unfold once_call, once; cbn [alreadyCalled negb].
  rewrite (func_apply_eq _ _ _ _ _ _ Hf); cbn [result].
  by rewrite once_calls_latched.
Qed.

(** C5. When [func] throws in the first call of [g = once(func)], the
    exception reaches that caller, the variables [alreadyCalled] and
    [result] keep their initial values, and the next call runs [func]
    again, with its own [this] and arguments, and completes the way that
    execution of [func] does. *)
Theorem once_failed_call_not_latched (h : host St) (this : value)
    (args : list value) (e : value) (s' : St) :
  func (fstate h) this args = (Throw e, s') ->
  once_call func once this args h = (Throw e, once, logged Sync this args s' h)
  /\ forall (this' : value) (args' : list value) (c : completion) (s'' : St),
       func s' this' args' = (c, s'') ->
       exists env',
         once_call func once this' args' (logged Sync this args s' h)
         = (c, env', logged Sync this' args' s'' (logged Sync this args s' h)).
Proof.
  intros Hf. split.
  - unfold once_call, once; cbn [alreadyCalled negb].
    by rewrite (func_apply_eq _ _ _ _ _ _ Hf).
  - intros this' args' c s'' Hf'.
    unfold once_call, once; cbn [alreadyCalled negb].
    rewrite (func_apply_eq _ _ _ (logged Sync this args s' h) _ _ Hf').
    destruct c; eauto.
Qed.

End OnceFacts.

Section MemoizeFacts.

Context {St : Type}.
Variable func : St -> value -> list value -> completion * St.

Lemma memoize_call_hit (results : gmap string value) (this : value)
    (args : list value) (h : host St) :
  truthy (prop_get results (cache_key args)) = true ->
  memoize_call func results this args h
  = (Normal (prop_get results (cache_key args)), results, h).
Proof. intros Ht. unfold memoize_call. by rewrite Ht. Qed.

Lemma memoize_call_miss (results : gmap string value) (this : value)
    (args : list value) (h : host St) (c : completion) (s' : St) :
  truthy (prop_get results (cache_key args)) = false ->
  func (fstate h) this args = (c, s') ->
  memoize_call func results this args h
  = (c,
     match c with
     | Normal v => prop_set results (cache_key args) v
     | Throw _ => results
     end,
     logged Sync this args s' h).
Proof.
  intros Ht Hf. unfold memoize_call. rewrite Ht; cbn [negb].
  rewrite (func_apply_eq func _ _ _ _ _ _ Hf).
  destruct c; [by rewrite prop_get_set_eq | done].
Qed.

(** A call that left the log as it was found a truthy entry; a call that
    extended the log found none. *)
Lemma memoize_call_ran (results results' : gmap string value) (this : value)
    (args : list value) (h h' : host St) (c : completion) :
  memoize_call func results this args h = (c, results', h') ->
  calls h' <> calls h ->
  truthy (prop_get results (cache_key args)) = false.
Proof.
  intros Hcall Hran.
  destruct (truthy (prop_get results (cache_key args))) eqn:Ht; [|done].
  rewrite (memoize_call_hit _ _ _ _ Ht) in Hcall.
  by inversion Hcall; subst.
Qed.

(** An entry that reads truthy is never written again. *)
Lemma memoize_call_keeps_truthy (k : string) (results results' : gmap string value)
    (this : value) (args : list value) (h h' : host St) (c : completion) :
  truthy (prop_get results k) = true ->
  memoize_call func results this args h = (c, results', h') ->
  prop_get results' k = prop_get results k.
Proof.
  intros Hk Hcall.
  destruct (truthy (prop_get results (cache_key args))) eqn:Ht.
  - rewrite (memoize_call_hit _ _ _ _ Ht) in Hcall. by inversion Hcall; subst.
  - destruct (func (fstate h) this args) as [c0 s'] eqn:Hf.
    rewrite (memoize_call_miss _ _ _ _ _ _ Ht Hf) in Hcall.
    inversion Hcall; subst. destruct c; [|done].
    apply prop_get_set_ne. intros Heq. rewrite Heq in Ht. congruence.
Qed.


(** The table only grows: no call removes a key. *)
Lemma memoize_table_grows (results results' : gmap string value) (this : value)
    (args : list value) (h h' : host St) (c : completion) :
  memoize_call func results this args h = (c, results', h') ->
  dom results ⊆ dom results'.
Proof.
  intros Hcall.
  destruct (truthy (prop_get results (cache_key args))) eqn:Ht.
  - rewrite (memoize_call_hit _ _ _ _ Ht) in Hcall. by inversion Hcall; subst.
  - destruct (func (fstate h) this args) as [c0 s'] eqn:Hf.
    rewrite (memoize_call_miss _ _ _ _ _ _ Ht Hf) in Hcall.
    inversion Hcall; subst. destruct c; [|done].
    unfold prop_set. rewrite dom_insert_L. set_solver.
Qed.

(** A key that names a property inherited from [Object.prototype] reads
    truthy in the empty table: the wrapper answers with the built-in and
    [func] does not run. *)
Lemma memoize_inherited_key_not_computed (this : value) (h : host St) :
  memoize_call func memoize this [VStr "toString"] h
  = (Normal (native 6 "toString"), memoize, h).
Proof. by rewrite memoize_call_hit. Qed.

Section FalsyKey.

(** [func] yields only falsy values for the argument lists filed under
    [k]. *)
Variable k : string.
Hypothesis func_falsy :
  forall (s s' : St) (this : value) (args : list value) (v : value),
    cache_key args = k -> func s this args = (Normal v, s') -> truthy v = false.

Lemma memoize_call_keeps_falsy (results results' : gmap string value)
    (this : value) (args : list value) (h h' : host St) (c : completion) :
  truthy (prop_get results k) = false ->
  memoize_call func results this args h = (c, results', h') ->
  truthy (prop_get results' k) = false.
Proof.
  intros Hk Hcall.
  destruct (truthy (prop_get results (cache_key args))) eqn:Ht.
  - rewrite (memoize_call_hit _ _ _ _ Ht) in Hcall. by inversion Hcall; subst.
  - destruct (func (fstate h) this args) as [c0 s'] eqn:Hf.
    rewrite (memoize_call_miss _ _ _ _ _ _ Ht Hf) in Hcall.
    inversion Hcall; subst. destruct c as [v|e]; [|done].
    destruct (decide (cache_key args = k)) as [<-|Hne].
    + rewrite prop_get_set_eq. by eapply func_falsy.
    + by rewrite prop_get_set_ne.
Qed.

Lemma memoize_calls_keep_falsy (cs : list (value * list value)) :
  forall (results results' : gmap string value) (h h' : host St)
         (rs : list completion),
    truthy (prop_get results k) = false ->
    memoize_calls func results h cs = (rs, results', h') ->
    truthy (prop_get results' k) = false.
Proof.
  induction cs as [|[this args] cs IH]; intros results results' h h' rs Hk Hrun.
  - simpl in Hrun. by inversion Hrun; subst.
  - cbn [memoize_calls] in Hrun.
    destruct (memoize_call func results this args h) as [[c r1] h1] eqn:Hcall.
    destruct (memoize_calls func r1 h1 cs) as [[rs' r2] h2] eqn:Hrest.
    inversion Hrun; subst.
    eapply IH; [|exact Hrest].
    by eapply memoize_call_keeps_falsy.
Qed.

(** C6 (as amended). Let [k] be a key that names no property inherited
    from [Object.prototype], and let [func] return only falsy values for
    the arguments filed under [k].  Then from the wrapper as [_.memoize]
    makes it, after any sequence of calls, a call with key [k] runs [func]
    with that call's [this] and arguments: the first call with the key
    computes, and every later one computes again, because the stored falsy
    value fails the truthiness test that guards the cache. *)
Theorem memoize_falsy_key_recomputed
    (cs : list (value * list value)) (rs : list completion)
    (results : gmap string value) (h h' : host St)
    (this : value) (args : list value) :
  Object_prototype !! k = None ->
  cache_key args = k ->
  memoize_calls func memoize h cs = (rs, results, h') ->
  exists (c : completion) (results' : gmap string value) (s' : St),
    func (fstate h') this args = (c, s')
    /\ memoize_call func results this args h'
       = (c, results', logged Sync this args s' h').
Proof.
  intros Hown Hk Hcalls.
  assert (truthy (prop_get memoize k) = false) as Hfresh.
  { unfold prop_get, memoize. by rewrite lookup_empty, Hown. }
  pose proof (memoize_calls_keep_falsy _ _ _ _ _ _ Hfresh Hcalls) as Hfalsy.
  destruct (func (fstate h') this args) as [c s'] eqn:Hf.
  exists c, (match c with
             | Normal v => prop_set results (cache_key args) v
             | Throw _ => results
             end), s'.
  split; [done|].
  apply memoize_call_miss; [by rewrite Hk | done].
Qed.

End FalsyKey.


End MemoizeFacts.

Section TimerFacts.

Context {St : Type}.
Variable func : St -> value -> list value -> completion * St.
Variable timer_this : value.
Variable wait : Z.

Local Abbreviation step1 := (step func timer_this wait).
Local Abbreviation run1 := (run func timer_this wait).
Local Abbreviation turn1 := (turn func timer_this wait).

(** *** The two paths of the throttled wrapper *)

Lemma throttle_call_cooling (env : throttle_env) (this : value)
    (args : list value) (h : host St) :
  cooling (lastTrigger env) (clock h) wait = true ->
  throttle_call func wait env this args h
  = (Normal VUndefined,
     {| lastTrigger := lastTrigger env; timer := Some (next_id h);
        results := results env |},
     (setTimeout (TrailingCb (clock h)) wait (clearTimeout (timer env) h)).2).
Proof.
  intros Hc. unfold throttle_call. rewrite Hc.
  by destruct (timer env).
Qed.

Lemma throttle_call_immediate (env : throttle_env) (this : value)
    (args : list value) (h : host St) (c : completion) (s' : St) :
  cooling (lastTrigger env) (clock h) wait = false ->
  func (fstate h) this args = (c, s') ->
  throttle_call func wait env this args h
  = (match c with Normal _ => Normal VUndefined | Throw e => Throw e end,
     {| lastTrigger := Some (clock h); timer := timer env;
        results := match c with Normal v => v | Throw _ => results env end |},
     logged Sync this args s' h).
Proof.
  intros Hc Hf. unfold throttle_call. rewrite Hc.
  rewrite (func_apply_eq func _ _ _ _ _ _ Hf). by destruct c.
Qed.

(** The wrapper never hands a value of [func] back to its caller. *)
Lemma throttle_call_returns_undefined (env env' : throttle_env) (this : value)
    (args : list value) (h h' : host St) (v : value) :
  throttle_call func wait env this args h = (Normal v, env', h') ->
  v = VUndefined.
Proof.
  intros Hcall.
  destruct (cooling (lastTrigger env) (clock h) wait) eqn:Hc.
  - rewrite (throttle_call_cooling _ _ _ _ Hc) in Hcall. congruence.
  - destruct (func (fstate h) this args) as [c s'] eqn:Hf.
    rewrite (throttle_call_immediate _ _ _ _ _ _ Hc Hf) in Hcall.
    destruct c; congruence.
Qed.

(** When the facility runs a trailing callback, [func] receives the [this]
    and the (empty) argument list of the callback, not those of the call
    that scheduled it. *)
Lemma run_callback_trailing (id : nat) (now : Z) (env : throttle_env)
    (h : host St) (c : completion) (s' : St) :
  func (fstate h) timer_this [] = (c, s') ->
  run_callback func timer_this id (TrailingCb now) env h
  = ({| lastTrigger := Some now; timer := timer env;
        results := match c with Normal v => v | Throw _ => results env end |},
     logged (Timer id) timer_this [] s' h).
Proof.
  intros Hf. unfold run_callback.
  rewrite (func_apply_eq func _ _ _ _ _ _ Hf). by destruct c.
Qed.

Lemma run_callback_delay (id : nat) (args : list value) (env : throttle_env)
    (h : host St) (c : completion) (s' : St) :
  func (fstate h) timer_this args = (c, s') ->
  run_callback func timer_this id (DelayCb args) env h
  = (env, logged (Timer id) timer_this args s' h).
Proof.
  intros Hf. unfold run_callback.
  by rewrite (func_apply_eq func _ _ _ _ _ _ Hf).
Qed.

(** [_.delay] hands [setTimeout] the arguments after [wait], in order. *)
Lemma delay_eq (func_ref : value) (w : Z) (rest : list value) (h : host St) :
  delay func_ref w rest h = (VUndefined, (setTimeout (DelayCb rest) w h).2).
Proof. unfold delay. by rewrite map_spec, list_fmap_id. Qed.

Lemma step_turn (ev : event) (env env' : throttle_env) (h h' : host St) :
  step1 ev (env, h) = Some (env', h') -> turn1 env h ev env' h'.
Proof.
  intros Hstep. destruct ev as [this args|func_ref w rest|id|dt];
    unfold step in Hstep; cbv beta iota in Hstep.
  - destruct (cooling (lastTrigger env) (clock h) wait) eqn:Hc.
    + rewrite (throttle_call_cooling _ this args _ Hc) in Hstep.
      inversion Hstep; subst. by constructor.
    + destruct (func (fstate h) this args) as [c s'] eqn:Hf.
      rewrite (throttle_call_immediate _ _ _ _ _ _ Hc Hf) in Hstep.
      inversion Hstep; subst. by econstructor.
  - rewrite delay_eq in Hstep. inversion Hstep; subst. constructor.
  - destruct (pending h !! id) as [[t cb]|] eqn:Hp; [|done].
    cbn [due handler] in Hstep.
    destruct (t <=? clock h) eqn:Ht; [|done].
    apply Z.leb_le in Ht.
    destruct cb as [args|now].
    + destruct (func (fstate h) timer_this args) as [c s'] eqn:Hf.
      rewrite (run_callback_delay _ _ _ (remove_timer id h) _ _ Hf) in Hstep.
      inversion Hstep; subst. by econstructor.
    + destruct (func (fstate h) timer_this []) as [c s'] eqn:Hf.
      rewrite (run_callback_trailing _ _ _ (remove_timer id h) _ _ Hf) in Hstep.
      inversion Hstep; subst. by econstructor.
  - destruct (0 <=? dt) eqn:Hdt; [|done].
    apply Z.leb_le in Hdt. inversion Hstep; subst. by constructor.
Qed.

Lemma turn_step (ev : event) (env env' : throttle_env) (h h' : host St) :
  turn1 env h ev env' h' -> step1 ev (env, h) = Some (env', h').
Proof.
  intros Hturn. destruct Hturn as
    [this args Hc|this args c s' Hc Hf|func_ref w rest
    |id t args c s' Hp Ht Hf|id t now c s' Hp Ht Hf|dt Hdt];
    unfold step; cbv beta iota.
  - by rewrite (throttle_call_cooling _ this args _ Hc).
  - by rewrite (throttle_call_immediate _ _ _ _ _ _ Hc Hf).
  - by rewrite delay_eq.
  - rewrite Hp; cbn [due handler]. apply Z.leb_le in Ht; rewrite Ht.
    by rewrite (run_callback_delay _ _ _ (remove_timer id h) _ _ Hf).
  - rewrite Hp; cbn [due handler]. apply Z.leb_le in Ht; rewrite Ht.
    by rewrite (run_callback_trailing _ _ _ (remove_timer id h) _ _ Hf).
  - apply Z.leb_le in Hdt. by rewrite Hdt.
Qed.

(** *** Reachable systems are well formed *)

Lemma clearTimeout_lookup (t : option nat) (h : host St) (id : nat)
    (e : timer_entry) :
  pending (clearTimeout t h) !! id = Some e <->
  pending h !! id = Some e /\ t <> Some id.
Proof.
  destruct t as [i|]; simpl.
  - rewrite lookup_delete_Some. split.
    + intros [Hne H]. split; [done|congruence].
    + intros [H Hne]. split; [congruence|done].
  - split; [intros H; by split|by intros [H _]].
Qed.

Lemma clearTimeout_next_id (t : option nat) (h : host St) :
  next_id (clearTimeout t h) = next_id h.
Proof. by destruct t. Qed.

Lemma clearTimeout_calls (t : option nat) (h : host St) :
  calls (clearTimeout t h) = calls h.
Proof. by destruct t. Qed.

Lemma clearTimeout_clock (t : option nat) (h : host St) :
  clock (clearTimeout t h) = clock h.
Proof. by destruct t. Qed.

Lemma fresh_well_formed (s : St) (t : Z) :
  well_formed (throttle, fresh_host s t).
Proof.
  split; simpl.
  - intros id e. by rewrite lookup_empty.
  - intros i id H. by apply elem_of_nil in H.
  - done.
  - intros id e. by rewrite lookup_empty.
Qed.

Lemma turn_well_formed (ev : event) (env env' : throttle_env) (h h' : host St) :
  well_formed (env, h) -> turn1 env h ev env' h' -> well_formed (env', h').
Proof.
  intros [Hp Hl Ht Hs] Hturn; simpl in Hp, Hl, Ht, Hs.
  destruct Hturn as
    [this args Hc|this args c s' Hc Hf|func_ref w rest
    |id t args c s' Hpd Htd Hf|id t now c s' Hpd Htd Hf|dt Hdt];
    split; simpl; rewrite ?clearTimeout_next_id, ?clearTimeout_calls.
  - intros id e. rewrite lookup_insert_Some, clearTimeout_lookup.
    intros [[<- _]|(_ & H & _)]; [lia|]. apply Hp in H. lia.
  - intros i id Hi Ho. specialize (Hl _ _ Hi Ho). lia.
  - intros id [= <-]. lia.
  - intros id e. rewrite lookup_insert_Some, clearTimeout_lookup.
    intros [[<- _]|(_ & H & Hne)] He; [done|].
    destruct Hne. by eapply Hs.
  - done.
  - intros i id [Hi|Hi]%elem_of_app Ho; [by eapply Hl|].
    apply list_elem_of_singleton in Hi. by subst.
  - done.
  - done.
  - intros id e. rewrite lookup_insert_Some.
    intros [[<- _]|(_ & H)]; [lia|]. apply Hp in H. lia.
  - intros i id Hi Ho. specialize (Hl _ _ Hi Ho). lia.
  - intros id H. apply Ht in H. lia.
  - intros id e. rewrite lookup_insert_Some.
    intros [[<- <-]|(_ & H)] He; [done|]. by eapply Hs.
  - intros id' e. rewrite lookup_delete_Some. intros [_ H]. by eapply Hp.
  - intros i id' [Hi|Hi]%elem_of_app Ho; [by eapply Hl|].
    apply list_elem_of_singleton in Hi. subst. simpl in Ho.
    injection Ho as <-. by eapply Hp.
  - done.
  - intros id' e. rewrite lookup_delete_Some. intros [_ H]. by eapply Hs.
  - intros id' e. rewrite lookup_delete_Some. intros [_ H]. by eapply Hp.
  - intros i id' [Hi|Hi]%elem_of_app Ho; [by eapply Hl|].
    apply list_elem_of_singleton in Hi. subst. simpl in Ho.
    injection Ho as <-. by eapply Hp.
  - done.
  - intros id' e. rewrite lookup_delete_Some. intros [_ H]. by eapply Hs.
  - done.
  - done.
  - done.
  - done.
Qed.

Lemma run_well_formed (evs : list event) :
  forall (sys sys' : system St),
    well_formed sys -> run1 evs sys = Some sys' -> well_formed sys'.
Proof.
  induction evs as [|ev evs IH]; intros sys sys' Hwf Hrun; simpl in Hrun.
  - by inversion Hrun; subst.
  - destruct (step1 ev sys) as [[env1 h1]|] eqn:Hstep; [|done].
    destruct sys as [env h]. apply step_turn in Hstep.
    eapply IH; [|exact Hrun]. by eapply turn_well_formed.
Qed.

Lemma reachable_well_formed (s : St) (t : Z) (evs : list event)
    (sys : system St) :
  run1 evs (throttle, fresh_host s t) = Some sys -> well_formed sys.
Proof. apply run_well_formed, fresh_well_formed. Qed.

(** *** The pending trailing timer *)

Lemma trailing_timers_lookup (h : host St) (id : nat) (e : timer_entry) :
  trailing_timers h !! id = Some e <->
  pending h !! id = Some e /\ is_trailing e = true.
Proof. unfold trailing_timers. by rewrite map_lookup_filter_Some. Qed.

Lemma size_at_most_one (m : gmap nat timer_entry) (t : option nat) :
  (forall id e, m !! id = Some e -> t = Some id) -> (size m <= 1)%nat.
Proof.
  intros Hm. destruct t as [i|].
  - destruct (m !! i) as [x|] eqn:Hi.
    + assert (m = {[i := x]}) as ->; [|by rewrite map_size_singleton].
      apply map_eq. intros j. destruct (decide (j = i)) as [->|Hne].
      * by rewrite lookup_singleton_eq.
      * rewrite lookup_singleton_ne by done.
        destruct (m !! j) as [y|] eqn:Hj; [|done].
        apply Hm in Hj. congruence.
    + assert (m = ∅) as ->; [|rewrite map_size_empty; lia].
      apply map_empty. intros j.
      destruct (m !! j) as [y|] eqn:Hj; [|done].
      pose proof (Hm _ _ Hj) as [= ->]. congruence.
  - assert (m = ∅) as ->; [|rewrite map_size_empty; lia].
    apply map_empty. intros j.
    destruct (m !! j) as [y|] eqn:Hj; [|done]. by apply Hm in Hj.
Qed.

(** C9. In every system reached from a fresh host by calls of the wrapper
    [g = throttle(func, wait)], calls of [_.delay], timers firing and time
    passing, at most one timer holding the trailing callback of [g] is
    pending, and it is the one the variable [timer] names.  A call of [g]
    inside the cooldown leaves exactly the timer it sets pending, the
    earlier one having been cleared first; every other turn sets no
    trailing timer: it leaves the pending ones as they are, or, when a
    timer fires, removes that one. *)
Theorem throttle_single_pending_timer (s : St) (t : Z) (evs : list event)
    (env : throttle_env) (h : host St) :
  run1 evs (throttle, fresh_host s t) = Some (env, h) ->
  (size (trailing_timers h) <= 1)%nat
  /\ (forall id e, trailing_timers h !! id = Some e -> timer env = Some id)
  /\ forall (ev : event) (env' : throttle_env) (h' : host St),
       step1 ev (env, h) = Some (env', h') ->
       match ev with
       | Call _ _ =>
           if cooling (lastTrigger env) (clock h) wait
           then trailing_timers h'
                = {[ next_id h := TimerEntry
                                    (clock h + Z.max 0 (to_int32 wait))
                                    (TrailingCb (clock h)) ]}
                /\ timer env' = Some (next_id h)
           else trailing_timers h' = trailing_timers h
       | Delay _ _ _ | Tick _ => trailing_timers h' = trailing_timers h
       | Fire id => trailing_timers h' = delete id (trailing_timers h)
       end.
Proof.
  intros Hrun. pose proof (reachable_well_formed _ _ _ _ Hrun) as Hwf.
  destruct Hwf as [Hp Hl Ht Hs]; simpl in Hp, Hl, Ht, Hs.
  assert (forall id e, trailing_timers h !! id = Some e -> timer env = Some id)
    as Hone.
  { intros id e [H1 H2]%trailing_timers_lookup. by eapply Hs. }
  split; [by eapply size_at_most_one|]. split; [done|].
  intros ev env' h' Hstep. apply step_turn in Hstep.
  destruct Hstep as
    [this args Hc|this args c s' Hc Hf|func_ref w rest
    |id t' args c s' Hpd Htd Hf|id t' now c s' Hpd Htd Hf|dt Hdt];
    rewrite ?Hc; try done.
  - split; [|done]. apply map_eq. intros j. apply option_eq. intros e.
    rewrite trailing_timers_lookup, lookup_singleton_Some. simpl.
    rewrite ?clearTimeout_next_id, ?clearTimeout_clock.
    rewrite lookup_insert_Some, clearTimeout_lookup.
    split.
    + intros [[[-> <-]|(_ & H & Hne)] He]; [done|].
      destruct Hne. by eapply Hs.
    + intros [-> <-]. split; [by left|done].
  - apply map_eq. intros j. apply option_eq. intros e.
    rewrite !trailing_timers_lookup. simpl. rewrite lookup_insert_Some.
    split.
    + intros [[[_ <-]|(_ & H)] He]; [done|by split].
    + intros [H He]. split; [|done]. right. split; [|done].
      apply Hp in H. lia.
  - apply map_eq. intros j. apply option_eq. intros e.
    rewrite lookup_delete_Some, !trailing_timers_lookup. simpl.
    rewrite lookup_delete_Some. tauto.
  - apply map_eq. intros j. apply option_eq. intros e.
    rewrite lookup_delete_Some, !trailing_timers_lookup. simpl.
    rewrite lookup_delete_Some. tauto.
Qed.

(** *** A timer set by [_.delay] *)









End TimerFacts.

(** ** The decorators on concrete inputs *)

(** C7. A key that is present in the table is computed again when the
    value stored under it is falsy: with [func] returning [0], the calls
    [g(5); g(5)] run [func] twice, although the first call has filed its
    result under ["5"]. *)
Theorem memoize_recomputes_falsy_entry :
  memoize_calls (returning (VNum 0)) memoize (fresh_host tt 0) same_key_twice
  = ([Normal (VNum 0); Normal (VNum 0)],
     {["5" := VNum 0]},
     logged Sync VUndefined [VNum 5] tt
       (logged Sync VUndefined [VNum 5] tt (fresh_host tt 0))).
Proof. vm_compute. reflexivity. Qed.

(** C1. With [wait = 100], a call at 1000, a call at 1001 and a call at
    1100 followed by the timer of the second call firing at 1101 run
    [func] at 1100 and again at 1101: two executions 1 ms apart. *)
Theorem throttle_runs_twice_within_window :
  exists (env : throttle_env) (h : host unit),
    run first_argument window 100 late_call_then_timer
      (throttle, fresh_host tt 1000) = Some (env, h)
    /\ calls h = [ Invocation 1000 Sync VUndefined [VStr "a"];
                   Invocation 1100 Sync VUndefined [VStr "c"];
                   Invocation 1101 (Timer 1) window [] ]
    /\ ~ spaced 100 (calls h).
Proof.
  eexists _, _. split; [vm_compute; reflexivity|]. split; [reflexivity|].
  intros Hspaced.
  specialize (Hspaced 1%nat 2%nat _ _ ltac:(lia) eq_refl eq_refl).
  simpl in Hspaced. lia.
Qed.

(** The trailing callback sets [lastTrigger] to the time of the call that
    scheduled it, so a call right after a trailing execution runs [func]
    at once: here both at 1199. *)
Lemma throttle_runs_right_after_trailing :
  exists (env : throttle_env) (h : host unit),
    run first_argument window 100 call_after_trailing
      (throttle, fresh_host tt 1000) = Some (env, h)
    /\ calls h = [ Invocation 1000 Sync VUndefined [VStr "a"];
                   Invocation 1199 (Timer 1) window [];
                   Invocation 1199 Sync VUndefined [VStr "c"] ].
Proof. eexists _, _. split; [vm_compute; reflexivity|reflexivity]. Qed.

(** C2. With [wait = 100], [g("a")] at 1000 and [g("b")] at 1010 lead to
    one trailing execution, at 1110, and it runs [func] without arguments:
    the argument ["b"] of the latest call in the window does not reach
    [func]. *)
Theorem throttle_trailing_call_loses_arguments :
  exists (env : throttle_env) (h : host unit),
    run first_argument window 100 two_calls_then_timer
      (throttle, fresh_host tt 1000) = Some (env, h)
    /\ calls h = [ Invocation 1000 Sync VUndefined [VStr "a"];
                   Invocation 1110 (Timer 1) window [] ].
Proof. eexists _, _. split; [vm_compute; reflexivity|reflexivity]. Qed.

(** C3. The first call of [g = throttle(func, 100)] runs [func] at once,
    and although [func] returns [42], which ends up in the variable
    [results], the call of [g] returns [undefined]. *)
Theorem throttle_immediate_call_returns_undefined :
  throttle_call (returning (VNum 42)) 100 throttle VUndefined []
    (fresh_host tt 1000)
  = (Normal VUndefined,
     {| lastTrigger := Some 1000; timer := None; results := VNum 42 |},
     logged Sync VUndefined [] tt (fresh_host tt 1000)).
Proof. reflexivity. Qed.

(** C6, as first stated, fails for a key that names an inherited property:
    with [func] returning [0], which is falsy, the calls
    [g("toString"); g("toString")] both read the built-in [toString] of
    [Object.prototype] from the empty table and return it; afterwards the
    log is empty: [func] has run in neither call. *)
Lemma memoize_falsy_inherited_key_not_recomputed :
  returning (VNum 0) tt VUndefined [VStr "toString"] = (Normal (VNum 0), tt)
  /\ truthy (VNum 0) = false
  /\ exists (results : gmap string value) (h : host unit),
       memoize_calls (returning (VNum 0)) memoize (fresh_host tt 0)
         inherited_key_twice
       = ([Normal (native 6 "toString"); Normal (native 6 "toString")],
          results, h)
       /\ calls h = [].
Proof.
  split; [reflexivity|]. split; [reflexivity|].
  eexists _, _. split; [vm_compute; reflexivity|reflexivity].
Qed.


(** ** The theorems at concrete inputs *)

Lemma once_first_call_wins_witness :
  once_calls first_argument once (fresh_host tt 0)
    [plain_call [VNum 1]; plain_call [VNum 2]; plain_call []]
  = ([Normal (VNum 1); Normal (VNum 1); Normal (VNum 1)],
     {| alreadyCalled := true; result := VNum 1 |},
     logged Sync VUndefined [VNum 1] tt (fresh_host tt 0)).
Proof.
  apply (once_first_call_wins first_argument (fresh_host tt 0) VUndefined
           [VNum 1] [plain_call [VNum 2]; plain_call []] (VNum 1) tt).
  reflexivity.
Defined.

Lemma once_failed_call_not_latched_witness :
  once_call (throwing (VStr "boom")) once VUndefined [VNum 1] (fresh_host tt 0)
  = (Throw (VStr "boom"), once,
     logged Sync VUndefined [VNum 1] tt (fresh_host tt 0)).
Proof.
  apply (once_failed_call_not_latched (throwing (VStr "boom"))
           (fresh_host tt 0) VUndefined [VNum 1] (VStr "boom") tt).
  reflexivity.
Defined.

Lemma memoize_falsy_key_recomputed_witness :
  exists (c : completion) (results' : gmap string value) (s' : unit),
    returning (VNum 0) tt VUndefined [VStr "5"; VNum 1] = (c, s')
    /\ memoize_call (returning (VNum 0)) {["5" := VNum 0]} VUndefined
         [VStr "5"; VNum 1]
         (logged Sync VUndefined [VNum 5] tt
            (logged Sync VUndefined [VNum 5] tt (fresh_host tt 0)))
       = (c, results',
          logged Sync VUndefined [VStr "5"; VNum 1] s'
            (logged Sync VUndefined [VNum 5] tt
               (logged Sync VUndefined [VNum 5] tt (fresh_host tt 0)))).
Proof.
  refine (memoize_falsy_key_recomputed (returning (VNum 0)) "5" _
            same_key_twice [Normal (VNum 0); Normal (VNum 0)]
            {["5" := VNum 0]} (fresh_host tt 0)
            (logged Sync VUndefined [VNum 5] tt
               (logged Sync VUndefined [VNum 5] tt (fresh_host tt 0)))
            VUndefined [VStr "5"; VNum 1] _ _ _).
  - intros s s' this args v _ [= <- _]. reflexivity.
  - vm_compute; reflexivity.
  - reflexivity.
  - vm_compute; reflexivity.
Defined.


Lemma throttle_single_pending_timer_witness :
  (size (trailing_timers after_call_in_cooldown.2) <= 1)%nat.
Proof.
  apply (throttle_single_pending_timer first_argument window 100 tt 1000
           call_in_cooldown after_call_in_cooldown.1
           after_call_in_cooldown.2).
  vm_compute; reflexivity.
Defined.


(** ** Collections *)

Section CollectionFacts.

(** *** Strict equality *)


Lemma strict_equals_sym (a b : value) : strict_equals a b = strict_equals b a.
Proof.
  destruct a, b; simpl; try done; apply bool_decide_ext; split; congruence.
Qed.

Lemma strict_equals_trans (a b c : value) :
  strict_equals a b = true -> strict_equals b c = true ->
  strict_equals a c = true.
Proof.
  destruct a, b, c; simpl; try done;
    rewrite !bool_decide_eq_true; congruence.
Qed.

(** Equal up to [===] means interchangeable as argument of [===]. *)
Lemma strict_equals_congr (a b c : value) :
  strict_equals a b = true -> strict_equals a c = strict_equals b c.
Proof.
  intros Hab. destruct (strict_equals b c) eqn:Hbc.
  - by eapply strict_equals_trans.
  - destruct (strict_equals a c) eqn:Hac; [|done].
    rewrite <- Hbc. symmetry. eapply strict_equals_trans; [|exact Hac].
    by rewrite strict_equals_sym.
Qed.

Lemma has_element_app (a b : list value) (x : value) :
  has_element (a ++ b) x = has_element a x || has_element b x.
Proof. unfold has_element. apply existsb_app. Qed.

Lemma has_element_congr (a : list value) (x y : value) :
  strict_equals x y = true -> has_element a x = has_element a y.
Proof.
  intros Hxy. unfold has_element. induction a as [|z a IH]; [done|]; simpl.
  rewrite IH. f_equal.
  rewrite (strict_equals_sym z x), (strict_equals_sym z y).
  by apply strict_equals_congr.
Qed.

(** *** The loops *)

Lemma each_snoc {A Acc : Type} (collection : list A) (x : A)
    (iterator : Acc -> A -> Acc) (acc : Acc) :
  each (collection ++ [x]) iterator acc
  = iterator (each collection iterator acc) x.
Proof. unfold each. by rewrite foldl_app. Qed.

Lemma each_indexed_state {A Acc : Type} (collection : list A)
    (iterator : Acc -> A -> Z -> Acc) (st : Acc * Z) :
  (foldl (fun st item => (iterator st.1 item st.2, st.2 + 1)) st collection).2
  = st.2 + Z.of_nat (length collection).
Proof.
  revert st. induction collection as [|x l IH]; intros st; simpl; [lia|].
  rewrite IH; simpl. lia.
Qed.

Lemma each_indexed_snoc {A Acc : Type} (collection : list A) (x : A)
    (iterator : Acc -> A -> Z -> Acc) (acc : Acc) :
  each_indexed (collection ++ [x]) iterator acc
  = iterator (each_indexed collection iterator acc) x
      (Z.of_nat (length collection)).
Proof.
  unfold each_indexed. rewrite foldl_app; simpl.
  by rewrite each_indexed_state.
Qed.

Lemma each_indexed_nil {A Acc : Type} (iterator : Acc -> A -> Z -> Acc)
    (acc : Acc) :
  each_indexed [] iterator acc = acc.
Proof. done. Qed.

(** An iterator that ignores the index sees the loop of [each]. *)
Lemma each_indexed_each {A Acc : Type} (collection : list A)
    (iterator : Acc -> A -> Acc) (acc : Acc) :
  each_indexed collection (fun acc item _ => iterator acc item) acc
  = each collection iterator acc.
Proof.
  induction collection as [|x l IH] using rev_ind; [done|].
  by rewrite each_indexed_snoc, each_snoc, IH.
Qed.

(** *** [_.first] and [_.last] *)

Lemma relative_index_nonneg (len k : Z) :
  0 <= k -> relative_index len k = Z.min k len.
Proof. intros Hk. unfold relative_index. by destruct (Z.ltb_spec k 0); [lia|]. Qed.

Lemma relative_index_neg (len k : Z) :
  k < 0 -> relative_index len k = Z.max (len + k) 0.
Proof. intros Hk. unfold relative_index. by destruct (Z.ltb_spec k 0); [|lia]. Qed.

Lemma array_slice_prefix {A : Type} (array : list A) (n : Z) :
  0 <= n -> array_slice array 0 (Some n) = take (Z.to_nat n) array.
Proof.
  intros Hn. unfold array_slice.
  rewrite !relative_index_nonneg by lia.
  rewrite (Z.min_l 0) by lia. rewrite Z.sub_0_r, drop_0.
  destruct (decide (n <= Z.of_nat (length array))) as [Hle|Hgt].
  - by rewrite Z.min_l by lia.
  - rewrite Z.min_r by lia. rewrite Nat2Z.id.
    rewrite !take_ge; [done|lia|lia].
Qed.

Lemma array_slice_suffix {A : Type} (array : list A) (n : Z) :
  0 < n -> array_slice array (- n) None
           = drop (length array - Z.to_nat n) array.
Proof.
  intros Hn. unfold array_slice.
  rewrite relative_index_neg by lia.
  rewrite take_ge; [f_equal; lia|].
  rewrite length_drop. lia.
Qed.

(** X1. For [0 <= n <= array.length], [_.first(array, n)] and
    [_.last(array, array.length - n)] are two arrays that split [array]:
    the first has [n] elements and their concatenation is [array]. *)
Theorem first_last_split (array : list value) (n : Z) :
  0 <= n <= Z.of_nat (length array) ->
  exists (front back : list value),
    first array (Some n) = Elements front
    /\ last array (Some (Z.of_nat (length array) - n)) = Elements back
    /\ front ++ back = array
    /\ length front = Z.to_nat n.
Proof.
  intros Hn. exists (take (Z.to_nat n) array), (drop (Z.to_nat n) array).
  split; [simpl; by rewrite array_slice_prefix by lia|].
  split.
  - simpl. destruct (Z.eqb_spec (Z.of_nat (length array) - n) 0) as [H0|H0].
    + rewrite drop_ge; [done|lia].
    + rewrite array_slice_suffix by lia. do 2 f_equal. lia.
  - split; [apply take_drop|]. rewrite length_take. lia.
Qed.

(** Without [n], [_.first] and [_.last] return the first and the last
    element, and [undefined] for the empty array. *)
Lemma first_last_element (array : list value) (x : value) :
  first (x :: array) None = Element x
  /\ last (array ++ [x]) None = Element x
  /\ first [] None = Element VUndefined
  /\ last [] None = Element VUndefined.
Proof.
  repeat split. simpl. unfold array_get.
  rewrite length_app; simpl.
  destruct (Z.ltb_spec (Z.of_nat (length array + 1) - 1) 0) as [|_]; [lia|].
  replace (Z.to_nat _) with (length array) by lia.
  by rewrite list_lookup_middle.
Qed.

(** X2. A negative [n] does not fail: [_.first(array, n)] is [array]
    without its last [-n] elements, [_.last(array, n)] is [array] without
    its first [-n] elements; and [_.last(array, 0)] is empty. *)
Theorem first_last_negative (array : list value) (n : Z) :
  n < 0 ->
  first array (Some n) = Elements (take (length array - Z.to_nat (- n)) array)
  /\ last array (Some n) = Elements (drop (Z.to_nat (- n)) array)
  /\ last array (Some 0) = Elements [].
Proof.
  intros Hn. split; [|split; [|done]]; simpl.
  - unfold array_slice.
    rewrite relative_index_neg, relative_index_nonneg by lia.
    rewrite (Z.min_l 0) by lia. rewrite Z.sub_0_r, drop_0.
    do 2 f_equal. lia.
  - destruct (Z.eqb_spec n 0) as [|_]; [lia|].
    unfold array_slice. rewrite relative_index_nonneg by lia. f_equal.
    destruct (decide (- n <= Z.of_nat (length array))) as [Hle|Hgt].
    + rewrite Z.min_l by lia. rewrite take_ge; [done|].
      rewrite length_drop. lia.
    + rewrite Z.min_r by lia. rewrite Nat2Z.id.
      rewrite !drop_ge by lia. by rewrite take_nil.
Qed.

(** *** [_.indexOf] *)

Lemma indexOf_snoc (array : list value) (x target : value) :
  indexOf (array ++ [x]) target
  = if strict_equals x target && (indexOf array target =? -1)
    then Z.of_nat (length array) else indexOf array target.
Proof. unfold indexOf. by rewrite each_indexed_snoc. Qed.

Lemma has_element_false (array : list value) (target : value) (i : nat)
    (x : value) :
  has_element array target = false -> array !! i = Some x ->
  strict_equals x target = false.
Proof.
  unfold has_element. revert i.
  induction array as [|y l IH]; intros i Hex Hi; [done|].
  simpl in Hex. apply orb_false_iff in Hex as [Hy Hl].
  destruct i as [|i]; simpl in Hi; [by injection Hi as ->|by eapply IH].
Qed.

Lemma indexOf_cases (array : list value) (target : value) :
  if has_element array target then
    exists (i : nat) (x : value),
      indexOf array target = Z.of_nat i
      /\ array !! i = Some x
      /\ strict_equals x target = true
      /\ forall (j : nat) (y : value),
           (j < i)%nat -> array !! j = Some y ->
           strict_equals y target = false
  else indexOf array target = -1.
Proof.
  induction array as [|x' l IH] using rev_ind; [done|].
  rewrite has_element_app, indexOf_snoc.
  destruct (has_element l target) eqn:Hl; simpl.
  - destruct IH as (i & x & Hi & Hx & Heq & Hfirst).
    pose proof (lookup_lt_Some _ _ _ Hx) as Hlt.
    exists i, x. rewrite Hi.
    destruct (Z.eqb_spec (Z.of_nat i) (-1)) as [|_]; [lia|].
    rewrite andb_false_r. split; [done|].
    split; [by rewrite lookup_app_l|]. split; [done|].
    intros j y Hj Hy. apply (Hfirst j y Hj).
    by rewrite lookup_app_l in Hy by lia.
  - rewrite orb_false_r, IH. simpl. rewrite andb_true_r.
    destruct (strict_equals x' target) eqn:Hx'; [|done].
    exists (length l), x'. split; [done|].
    split; [by rewrite list_lookup_middle|]. split; [done|].
    intros j y Hj Hy. rewrite lookup_app_l in Hy by done.
    by eapply has_element_false.
Qed.

(** X3. [_.indexOf(array, target)] is the index of the first element that
    is [===] to [target], and [-1] when there is none. *)
Theorem indexOf_first_match (array : list value) (target : value) :
  if has_element array target then
    exists (i : nat) (x : value),
      indexOf array target = Z.of_nat i
      /\ array !! i = Some x
      /\ strict_equals x target = true
      /\ forall (j : nat) (y : value),
           (j < i)%nat -> array !! j = Some y ->
           strict_equals y target = false
  else indexOf array target = -1.
Proof. apply indexOf_cases. Qed.

Lemma indexOf_none (array : list value) (target : value) :
  (indexOf array target =? -1) = negb (has_element array target).
Proof.
  pose proof (indexOf_cases array target) as H.
  destruct (has_element array target); simpl.
  - destruct H as (i & _ & -> & _). by destruct (Z.eqb_spec (Z.of_nat i) (-1)); [lia|].
  - by rewrite H.
Qed.

(** *** [_.filter] and [_.reject] *)

Lemma filter_snoc (collection : list value) (x : value)
    (test : value -> value) :
  filter (collection ++ [x]) test
  = if truthy (test x) then filter collection test ++ [x]
    else filter collection test.
Proof. unfold filter. by rewrite each_snoc. Qed.

Lemma filter_spec (collection : list value) (test : value -> value) :
  filter collection test
  = base.filter (fun x => truthy (test x) = true) collection.
Proof.
  induction collection as [|x l IH] using rev_ind; [done|].
  rewrite filter_snoc, filter_app, IH.
  rewrite filter_cons, filter_nil. case_decide as Hx.
  - by rewrite Hx.
  - apply not_true_is_false in Hx. rewrite Hx. by rewrite app_nil_r.
Qed.

Lemma reject_spec (collection : list value) (test : value -> value) :
  reject collection test
  = base.filter (fun x => ~ truthy (test x) = true) collection.
Proof.
  unfold reject. rewrite filter_spec. apply list_filter_iff.
  intros x. simpl.
  destruct (truthy (test x)); simpl; split; intros H; try done;
    try (by destruct H).
Qed.

(** X4. [_.filter] and [_.reject] split a collection: the elements for
    which [test] is truthy, and those for which it is falsy, each in the
    order of the collection, and together a rearrangement of it. *)
Theorem filter_reject_partition (collection : list value)
    (test : value -> value) :
  (forall x, x ∈ filter collection test <->
             x ∈ collection /\ truthy (test x) = true)
  /\ (forall x, x ∈ reject collection test <->
                x ∈ collection /\ truthy (test x) = false)
  /\ sublist (filter collection test) collection
  /\ sublist (reject collection test) collection
  /\ filter collection test ++ reject collection test ≡ₚ collection.
Proof.
  rewrite reject_spec, filter_spec.
  split; [|split; [|split; [|split]]].
  - intros x. rewrite list_elem_of_filter. tauto.
  - intros x. rewrite list_elem_of_filter.
    destruct (truthy (test x)); split; intros [H1 H2]; try done;
      try (by destruct H1).
  - apply sublist_filter.
  - apply sublist_filter.
  - apply filter_app_complement.
Qed.

(** X5. Filtering twice with the same test changes nothing more, and
    rejecting with the test what was filtered with it leaves nothing. *)
Theorem filter_twice (collection : list value) (test : value -> value) :
  filter (filter collection test) test = filter collection test
  /\ reject (filter collection test) test = [].
Proof.
  rewrite reject_spec, !filter_spec. split.
  - apply list_filter_filter_l. done.
  - induction collection as [|x l IH]; [done|].
    rewrite filter_cons. destruct (decide _) as [Hx|Hx]; [|done].
    rewrite filter_cons. by rewrite decide_False by tauto.
Qed.

(** *** [_.uniq] *)

Lemma uniq_snoc (array : list value) (x : value) :
  uniq (array ++ [x])
  = if has_element (uniq array) x then uniq array else uniq array ++ [x].
Proof.
  unfold uniq at 1. rewrite each_snoc. fold (uniq array).
  rewrite indexOf_none. by destruct (has_element (uniq array) x).
Qed.

Lemma pairwise_distinct_snoc (array : list value) (x : value) :
  pairwise_distinct (array ++ [x]) <->
  pairwise_distinct array /\ has_element array x = false.
Proof.
  split.
  - intros Hd. split.
    + intros i j a b Hij Hi Hj.
      pose proof (lookup_lt_Some _ _ _ Hi). pose proof (lookup_lt_Some _ _ _ Hj).
      apply (Hd i j a b Hij); by rewrite lookup_app_l.
    + unfold has_element. apply not_true_is_false.
      intros (a & Ha & Heq)%existsb_exists.
      apply list_elem_of_In, list_elem_of_lookup in Ha as [i Hi].
      pose proof (lookup_lt_Some _ _ _ Hi) as Hlt.
      rewrite (Hd i (length array) a x Hlt) in Heq; [done| |].
      * by rewrite lookup_app_l.
      * by rewrite list_lookup_middle.
  - intros [Hd Hx] i j a b Hij Hi Hj.
    pose proof (lookup_lt_Some _ _ _ Hj) as Hlt.
    rewrite length_app in Hlt; simpl in Hlt.
    destruct (decide (j = length array)) as [->|Hne].
    + rewrite list_lookup_middle in Hj by done. injection Hj as <-.
      rewrite lookup_app_l in Hi by done.
      exact (has_element_false _ _ _ _ Hx Hi).
    + rewrite lookup_app_l in Hi by lia. rewrite lookup_app_l in Hj by lia.
      exact (Hd i j a b Hij Hi Hj).
Qed.

Lemma uniq_facts (array : list value) :
  (forall x, has_element (uniq array) x = has_element array x)
  /\ pairwise_distinct (uniq array)
  /\ sublist (uniq array) array.
Proof.
  induction array as [|x l (Hsame & Hdist & Hsub)] using rev_ind.
  - split; [done|]. split; [by intros i j a b _ Hi|done].
  - rewrite uniq_snoc. destruct (has_element (uniq l) x) eqn:Hx.
    + split; [|split; [done|by apply sublist_inserts_r]].
      intros y. rewrite has_element_app, Hsame. simpl.
      rewrite orb_false_r.
      destruct (strict_equals x y) eqn:Hxy; [|by rewrite orb_false_r].
      rewrite orb_true_r, <- Hsame.
      by rewrite <- (has_element_congr _ _ _ Hxy).
    + split; [|split].
      * intros y. by rewrite !has_element_app, Hsame.
      * by apply pairwise_distinct_snoc.
      * by apply sublist_app.
Qed.




(** X7. An array without repeated values is left as it is by [_.uniq];
    so applying [_.uniq] twice gives what applying it once gives. *)
Theorem uniq_idempotent (array : list value) :
  (pairwise_distinct array -> uniq array = array)
  /\ uniq (uniq array) = uniq array.
Proof.
  assert (forall l, pairwise_distinct l -> uniq l = l) as Hfix.
  { intros l. induction l as [|x l IH] using rev_ind; [done|].
    intros [Hd Hx]%pairwise_distinct_snoc.
    by rewrite uniq_snoc, IH, Hx. }
  split; [apply Hfix|].
  apply Hfix, uniq_facts.
Qed.

(** *** [_.reduce] *)

Lemma reduce_snoc (collection : list value) (x : value)
    (iterator : value -> value -> Z -> value) (accumulator : value) :
  reduce (collection ++ [x]) iterator accumulator
  = if strict_equals (reduce collection iterator accumulator) VUndefined
    then x
    else iterator (reduce collection iterator accumulator) x
           (Z.of_nat (length collection)).
Proof. unfold reduce. by rewrite each_indexed_snoc. Qed.

Lemma reduce_concat (front back : list value)
    (iterator : value -> value -> Z -> value) (accumulator : value) :
  reduce (front ++ back) iterator accumulator
  = reduce back
      (fun acc item index =>
         iterator acc item (Z.of_nat (length front) + index))
      (reduce front iterator accumulator).
Proof.
  induction back as [|x l IH] using rev_ind.
  - by rewrite app_nil_r.
  - rewrite app_assoc, !reduce_snoc, IH, length_app.
    by rewrite Nat2Z.inj_add.
Qed.

(** X8. Reducing a concatenation is reducing the second part from the
    result of reducing the first, the indices of the second part counting
    on from the length of the first. *)
Theorem reduce_app (front back : list value)
    (iterator : value -> value -> Z -> value) (accumulator : value) :
  reduce (front ++ back) iterator accumulator
  = reduce back
      (fun acc item index =>
         iterator acc item (Z.of_nat (length front) + index))
      (reduce front iterator accumulator).
Proof. apply reduce_concat. Qed.

(** X9. When the starting value is not [undefined] and the iterator never
    returns [undefined], [_.reduce] is the left fold of the iterator over
    the collection from the starting value; without a starting value it is
    that fold over the rest of the collection from the first element,
    provided that element is not [undefined]. *)
Theorem reduce_is_fold (collection : list value)
    (iterator : value -> value -> Z -> value) (accumulator : value) :
  (forall acc item index, iterator acc item index <> VUndefined) ->
  accumulator <> VUndefined ->
  reduce collection iterator accumulator
  = each_indexed collection iterator accumulator
  /\ reduce (accumulator :: collection) iterator VUndefined
     = each_indexed collection
         (fun acc item index => iterator acc item (1 + index)) accumulator.
Proof.
  intros Hf Hacc.
  assert (forall v, v <> VUndefined -> strict_equals v VUndefined = false)
    as Hdef.
  { intros v Hv. destruct v; simpl; try done. }
  assert (forall f l, (forall acc item index, f acc item index <> VUndefined) ->
            reduce l f accumulator = each_indexed l f accumulator
            /\ reduce l f accumulator <> VUndefined) as Hfold.
  { intros f l Hf'. induction l as [|x l [IH1 IH2]] using rev_ind; [done|].
    rewrite reduce_snoc, each_indexed_snoc, (Hdef _ IH2), IH1.
    split; [done|apply Hf']. }
  split; [by apply Hfold|].
  rewrite (reduce_concat [accumulator] collection). simpl.
  by apply (Hfold (fun acc item index => iterator acc item (1 + index))).
Qed.

(** X10. An [undefined] accumulator is replaced by the next item, without
    a call of the iterator: so [_.reduce] of a one-element collection
    without starting value is that element whatever the iterator, and an
    iterator result of [undefined] is dropped in favour of the item that
    follows.  The empty collection reduces to the starting value. *)
Theorem reduce_undefined_accumulator (collection : list value) (x : value)
    (iterator : value -> value -> Z -> value) (accumulator : value) :
  reduce [] iterator accumulator = accumulator
  /\ reduce [x] iterator VUndefined = x
  /\ (reduce collection iterator accumulator = VUndefined ->
      reduce (collection ++ [x]) iterator accumulator = x).
Proof.
  split; [done|]. split; [done|].
  intros Hu. by rewrite reduce_snoc, Hu.
Qed.

(** *** [_.contains], [_.every], [_.some] *)

Lemma contains_has_element (collection : list value) (target : value) :
  contains collection target = VBool (has_element collection target).
Proof.
  induction collection as [|x l IH] using rev_ind; [done|].
  unfold contains in *. rewrite reduce_snoc, IH, has_element_app. simpl.
  rewrite orb_false_r. by destruct (has_element l target).
Qed.

(** X11. [_.contains(collection, target)] is [true] when an element of the
    collection is [===] to [target] and [false] otherwise, in particular
    for the empty collection. *)
Theorem contains_spec (collection : list value) (target : value) :
  contains collection target = VBool (has_element collection target).
Proof. apply contains_has_element. Qed.

Lemma every_forallb (collection : list value)
    (iterator : option (value -> value)) :
  every collection iterator = VBool (forallb (test_of iterator) collection).
Proof.
  induction collection as [|x l IH] using rev_ind; [done|].
  unfold every in *. rewrite reduce_snoc, IH, forallb_app. simpl.
  rewrite andb_true_r.
  destruct (forallb (test_of iterator) l); simpl; [|done].
  unfold test_of. by destruct iterator as [f|]; [destruct (truthy (f x))|destruct (truthy x)].
Qed.

(** X12. [_.every(collection, iterator)] is [true] when the iterator is
    truthy on every element (the element itself, when no iterator is
    given), [false] otherwise; it is [true] for the empty collection. *)
Theorem every_spec (collection : list value)
    (iterator : option (value -> value)) :
  every collection iterator = VBool (forallb (test_of iterator) collection).
Proof. apply every_forallb. Qed.

(** X13. [_.some(collection, iterator)] is [true] when the iterator is
    truthy on at least one element (the element itself, when no iterator
    is given), [false] otherwise; it is [false] for the empty
    collection. *)
Theorem some_spec (collection : list value)
    (iterator : option (value -> value)) :
  some collection iterator = VBool (existsb (test_of iterator) collection).
Proof.
  unfold some. rewrite every_forallb. simpl. f_equal.
  induction collection as [|x l IH]; [done|]. simpl.
  rewrite negb_andb, IH. f_equal.
  destruct iterator as [f|]; simpl; by rewrite negb_involutive.
Qed.

End CollectionFacts.

Section ArrayFacts.

Lemma array_get_nat (array : list value) (i : nat) :
  array_get array (Z.of_nat i) = default VUndefined (array !! i).
Proof.
  unfold array_get. destruct (Z.ltb_spec (Z.of_nat i) 0); [lia|].
  by rewrite Nat2Z.id.
Qed.

(** *** [_.zip] *)

Lemma zip_rows (arguments : list (list value)) :
  zip arguments
  = (fun index => Some (zip_row arguments index))
      <$> seq 0 (length arguments).
Proof.
  unfold zip.
  enough (forall (m k : nat) (output : list (option (list value))),
            length output = k ->
            foldl (fun output index =>
                     array_write output index
                       (pluck (fun (item : list value) (key : nat) =>
                                 array_get item (Z.of_nat key))
                          arguments index))
              output (seq k m)
            = output ++ ((fun index => Some (zip_row arguments index))
                           <$> seq k m)) as H.
  { by rewrite (H (length arguments) 0%nat []). }
  induction m as [|m IH]; intros k output Hlen; simpl.
  - by rewrite app_nil_r.
  - rewrite IH.
    + unfold array_write. rewrite decide_False by lia.
      rewrite Hlen, Nat.sub_diag. simpl.
      rewrite <- app_assoc. simpl. unfold pluck. by rewrite map_spec.
    + unfold array_write. rewrite decide_False by lia.
      rewrite Hlen, Nat.sub_diag. simpl. rewrite length_app. simpl. lia.
Qed.

(** X14. [_.zip] of [n] arrays has exactly [n] rows, whatever the lengths
    of the arrays: row [i] holds element [i] of each array, [undefined]
    for an array with fewer than [i + 1] elements, and the elements at
    index [n] and beyond appear in no row. *)
Theorem zip_as_many_rows_as_arrays (arguments : list (list value)) :
  length (zip arguments) = length arguments
  /\ forall (i : nat),
       (i < length arguments)%nat ->
       zip arguments !! i
       = Some (Some ((fun item => array_get item (Z.of_nat i))
                       <$> arguments)).
Proof.
  rewrite zip_rows. split.
  - by rewrite length_fmap, length_seq.
  - intros i Hi. rewrite list_lookup_fmap, lookup_seq_lt by done. done.
Qed.

(** X15. For [n] arrays of [n] elements each, zipping the rows of the
    result of [_.zip] gives the arrays back. *)
Theorem zip_zip_square (arguments : list (list value)) :
  (forall array, array ∈ arguments -> length array = length arguments) ->
  exists rows : list (list value),
    zip arguments = Some <$> rows
    /\ zip rows = Some <$> arguments.
Proof.
  intros Hsq.
  exists (zip_row arguments <$> seq 0 (length arguments)).
  split; [by rewrite zip_rows, <- list_fmap_compose|].
  rewrite zip_rows, length_fmap, length_seq.
  apply list_eq_same_length with (length arguments);
    [by rewrite ?length_fmap, ?length_seq..|].
  intros i x y Hi. rewrite !list_lookup_fmap, lookup_seq_lt by done.
  simpl. intros [= <-].
  destruct (arguments !! i) as [array|] eqn:Ha; [|done].
  simpl. intros [= <-]. f_equal.
  pose proof (Hsq array ltac:(by eapply list_elem_of_lookup_2)) as Hlen.
  apply list_eq_same_length with (length arguments);
    [done|by unfold zip_row; rewrite ?length_fmap, ?length_seq|].
  intros j x y Hj. unfold zip_row.
  rewrite !list_lookup_fmap, lookup_seq_lt by done. simpl.
  intros [= <-] Hy. rewrite array_get_nat.
  rewrite list_lookup_fmap, Ha. simpl. rewrite array_get_nat.
  by rewrite Hy.
Qed.

(** *** [_.flatten] *)

Lemma nested_induction (P : nested -> Prop) :
  (forall v, P (Leaf v)) ->
  (forall items, Forall P items -> P (Arr items)) ->
  forall x, P x.
Proof.
  intros Hleaf Harr. fix IH 1. intros [v|items].
  - apply Hleaf.
  - apply Harr. induction items as [|y l IHl]; constructor.
    + apply IH.
    + apply IHl.
Qed.

Lemma deepFlatten_items_push (items : list nested) :
  Forall (fun x => forall flat,
            deepFlatten_item x flat = flat ++ deepFlatten_item x []) items ->
  forall flat, deepFlatten items flat = flat ++ deepFlatten items [].
Proof.
  unfold deepFlatten. induction 1 as [|y l Hy _ IH]; intros flat; simpl.
  - by rewrite app_nil_r.
  - rewrite IH, (IH (deepFlatten_item y [])), Hy. by rewrite app_assoc.
Qed.

Lemma deepFlatten_item_push (x : nested) (flat : list value) :
  deepFlatten_item x flat = flat ++ deepFlatten_item x [].
Proof.
  revert flat. induction x as [v|items IH] using nested_induction;
    intros flat; [done|].
  by apply (deepFlatten_items_push items).
Qed.

Lemma deepFlatten_push (items : list nested) (flat : list value) :
  deepFlatten items flat = flat ++ deepFlatten items [].
Proof.
  apply deepFlatten_items_push, Forall_forall.
  intros x _. apply deepFlatten_item_push.
Qed.

Lemma flatten_app (front back : list nested) :
  flatten (front ++ back) = flatten front ++ flatten back.
Proof.
  unfold flatten. unfold deepFlatten at 1. rewrite foldl_app.
  apply (deepFlatten_push back).
Qed.

Lemma flatten_cons_leaf (v : value) (back : list nested) :
  flatten (Leaf v :: back) = v :: flatten back.
Proof. apply (deepFlatten_push back [v]). Qed.

Lemma flatten_cons_arr (items back : list nested) :
  flatten (Arr items :: back) = flatten items ++ flatten back.
Proof. apply (deepFlatten_push back (deepFlatten items [])). Qed.

Lemma flatten_leaves (array : list value) : flatten (Leaf <$> array) = array.
Proof.
  induction array as [|x l IH]; [done|].
  by rewrite fmap_cons, flatten_cons_leaf, IH.
Qed.

(** X16. [_.flatten] splices the elements of nested arrays in place, at
    every depth and in order: it distributes over concatenation, keeps an
    element that is not an array, and replaces an element that is an array
    by the flattening of that array. *)
Theorem flatten_splices (front back items : list nested) (v : value) :
  flatten (front ++ back) = flatten front ++ flatten back
  /\ flatten (Leaf v :: back) = v :: flatten back
  /\ flatten (Arr items :: back) = flatten items ++ flatten back
  /\ flatten [] = [].
Proof.
  split; [apply flatten_app|].
  split; [apply flatten_cons_leaf|].
  split; [apply flatten_cons_arr|done].
Qed.

(** X17. An array without nested arrays is returned as it is, so
    flattening a second time changes nothing. *)
Theorem flatten_flat (array : list value) (nestedArray : list nested) :
  flatten (Leaf <$> array) = array
  /\ flatten (Leaf <$> flatten nestedArray) = flatten nestedArray.
Proof.
  split; apply flatten_leaves.
Qed.

(** *** [_.intersection] and [_.difference] *)

Lemma intersection_scan_all (others : list (list value)) (item : value)
    (j : nat) :
  bool_decide (intersection_scan others item j = (j + length others)%nat)
  = forallb (fun array => has_element array item) others.
Proof.
  revert j. induction others as [|array l IH]; intros j; simpl.
  - apply bool_decide_eq_true_2. lia.
  - rewrite contains_has_element; simpl.
    destruct (has_element array item); simpl.
    + rewrite <- (IH (S j)). apply bool_decide_ext. lia.
    + apply bool_decide_eq_false_2. lia.
Qed.

Lemma forallb_has_element_congr (others : list (list value)) (x y : value) :
  strict_equals x y = true ->
  forallb (fun array => has_element array x) others
  = forallb (fun array => has_element array y) others.
Proof.
  intros Hxy. induction others as [|array l IH]; [done|]. simpl.
  by rewrite IH, (has_element_congr _ _ _ Hxy).
Qed.

Lemma intersection_facts (firstArray : list value)
    (others : list (list value)) :
  exists commons : list value,
    intersection (firstArray :: others) = Some commons
    /\ (forall x, has_element commons x
                  = has_element firstArray x
                    && forallb (fun array => has_element array x) others)
    /\ pairwise_distinct commons
    /\ sublist commons firstArray.
Proof.
  unfold intersection. eexists. split; [reflexivity|].
  cbn [drop length].
  induction firstArray as [|x l (Hmem & Hdist & Hsub)] using rev_ind.
  - split; [done|]. split; [by intros i j a b _ Hi|done].
  - rewrite foldl_app. cbn [foldl].
    set (commons := foldl _ [] l) in *. clearbody commons.
    rewrite drop_0, contains_has_element; simpl.
    destruct (has_element commons x) eqn:Hx.
    + split; [|split; [done|by apply sublist_inserts_r]].
      intros y. rewrite has_element_app, Hmem. simpl. rewrite orb_false_r.
      destruct (strict_equals x y) eqn:Hxy; [|by rewrite orb_false_r].
      rewrite orb_true_r.
      rewrite Hmem in Hx. apply andb_true_iff in Hx as [Hx1 Hx2].
      rewrite <- (has_element_congr _ _ _ Hxy), Hx1.
      by rewrite <- (forallb_has_element_congr _ _ _ Hxy), Hx2.
    + pose proof (intersection_scan_all others x 1) as Hscan.
      destruct (decide (intersection_scan others x 1 = S (length others)))
        as [Hall|Hnot].
      * rewrite bool_decide_eq_true_2 in Hscan by done.
        split; [|split].
        -- intros y. rewrite !has_element_app, Hmem. simpl.
           rewrite orb_false_r.
           destruct (strict_equals x y) eqn:Hxy.
           ++ rewrite !orb_true_r.
              by rewrite <- (forallb_has_element_congr _ _ _ Hxy), <- Hscan.
           ++ by rewrite !orb_false_r.
        -- by apply pairwise_distinct_snoc.
        -- by apply sublist_app.
      * rewrite bool_decide_eq_false_2 in Hscan by done.
        split; [|split; [done|by apply sublist_inserts_r]].
        intros y. rewrite has_element_app, Hmem. simpl. rewrite orb_false_r.
        destruct (strict_equals x y) eqn:Hxy; [|by rewrite orb_false_r].
        rewrite <- (forallb_has_element_congr _ _ _ Hxy), <- Hscan.
        by rewrite !andb_false_r.
Qed.

(** X18. [_.intersection] of one or more arrays holds, once each and in
    the order of the first array, the values of the first array that occur
    (up to [===]) in every other array. *)
Theorem intersection_spec (firstArray : list value)
    (others : list (list value)) :
  exists commons : list value,
    intersection (firstArray :: others) = Some commons
    /\ (forall x, has_element commons x
                  = has_element firstArray x
                    && forallb (fun array => has_element array x) others)
    /\ pairwise_distinct commons
    /\ sublist commons firstArray.
Proof. apply intersection_facts. Qed.

(** X19. [_.intersection] of a single array is [_.uniq] of that array, and
    [_.intersection] without arguments fails. *)
Theorem intersection_single (array : list value) :
  intersection [array] = Some (uniq array) /\ intersection [] = None.
Proof.
  split; [|done]. unfold intersection. f_equal. cbn [drop length].
  induction array as [|x l IH] using rev_ind; [done|].
  rewrite foldl_app, uniq_snoc. cbn [foldl]. rewrite IH.
  rewrite contains_has_element; simpl.
  by destruct (has_element (uniq l) x).
Qed.

Lemma difference_filter (array : list value) (others : list nested) :
  difference array others
  = base.filter (fun x => has_element (flatten others) x = false) array.
Proof.
  unfold difference. rewrite filter_spec.
  apply list_filter_iff. intros x. simpl.
  rewrite contains_has_element. simpl.
  by destruct (has_element (flatten others) x).
Qed.

(** X20. [_.difference(array, ...others)] keeps, in order and with their
    repetitions, the elements of [array] that are [===] to no element of
    the other arrays, the arrays nested in those included at any depth;
    with no other arrays it returns [array]. *)
Theorem difference_spec (array : list value) (others : list nested) :
  difference array others
  = base.filter (fun x => has_element (flatten others) x = false) array
  /\ difference array [] = array.
Proof.
  split; [apply difference_filter|].
  rewrite difference_filter.
  induction array as [|x l IH]; [done|].
  rewrite filter_cons, decide_True by done. by rewrite IH.
Qed.

End ArrayFacts.

Section ShuffleFacts.

Variable pick : nat -> nat.

Lemma array_pop_snoc (array : list value) (x : value) :
  array_pop (array ++ [x]) = (x, array).
Proof.
  unfold array_pop. rewrite length_app; simpl.
  replace (Z.of_nat (length array + 1) - 1) with (Z.of_nat (length array))
    by lia.
  rewrite array_get_nat. rewrite (list_lookup_middle array [] x) by done.
  simpl.
  replace (length array + 1 - 1)%nat with (length array) by lia.
  by rewrite take_app_length.
Qed.

Lemma array_assign_last (array : list value) (x y : value) :
  array_assign (array ++ [x]) (length array) y = array ++ [y].
Proof.
  unfold array_assign. rewrite decide_True by (rewrite length_app; simpl; lia).
  rewrite insert_app_r_alt by done. by rewrite Nat.sub_diag.
Qed.

Lemma array_assign_front (array : list value) (i : nat) (x y : value) :
  (i < length array)%nat ->
  array_assign (array ++ [x]) i y = <[i := y]> array ++ [x].
Proof.
  intros Hi. unfold array_assign.
  rewrite decide_True by (rewrite length_app; simpl; lia).
  by rewrite insert_app_l.
Qed.

(** One iteration of the loop on an array that ends in [t], for a random
    index inside the array: it pops [x] and leaves [rest], and [rest] with
    [x] is a rearrangement of the array. *)
Lemma shuffle_iteration (front : list value) (t : value) :
  (pick (length front) <= length front)%nat ->
  exists (x : value) (rest : list value),
    array_pop
      (array_assign
         (array_assign (front ++ [t]) (length front)
            (array_get (front ++ [t]) (Z.of_nat (pick (length front)))))
         (pick (length front))
         (array_get (front ++ [t]) (Z.of_nat (length front))))
    = (x, rest)
    /\ length rest = length front
    /\ rest ++ [x] ≡ₚ front ++ [t]
    /\ ((pick (length front) < length front)%nat ->
        front !! pick (length front) = Some x).
Proof.
  intros Hpick. set (ri := pick (length front)) in *.
  rewrite !array_get_nat.
  rewrite (list_lookup_middle front [] t (length front)) by done. simpl.
  rewrite array_assign_last.
  destruct (decide (ri = length front)) as [Heq|Hne].
  - rewrite Heq. rewrite (list_lookup_middle front [] t) by done. simpl.
    rewrite array_assign_last, array_pop_snoc.
    exists t, front. split; [done|]. split; [done|]. split; [done|lia].
  - assert (ri < length front)%nat as Hlt by lia.
    destruct (lookup_lt_is_Some_2 front ri Hlt) as [r Hr].
    rewrite lookup_app_l, Hr by done. simpl.
    rewrite array_assign_front, array_pop_snoc by done.
    exists r, (<[ri := t]> front).
    split; [done|]. split; [by rewrite length_insert|].
    split; [|done].
    rewrite insert_take_drop by done.
    rewrite <- (take_drop_middle front ri r Hr) at 3.
    solve_Permutation.
Qed.

Lemma shuffle_loop_permutation (n : nat) :
  (forall last, pick last <= last)%nat ->
  forall clonedArary shuffled : list value,
    length clonedArary = n ->
    shuffle_loop pick n clonedArary shuffled ≡ₚ shuffled ++ clonedArary.
Proof.
  intros Hpick. induction n as [|last IH]; intros c s Hlen.
  - destruct c; [|done]. simpl. by rewrite app_nil_r.
  - destruct c as [|t front _] using rev_ind; [done|].
    rewrite length_app in Hlen; simpl in Hlen.
    assert (length front = last) as <- by lia.
    cbn [shuffle_loop].
    destruct (shuffle_iteration front t (Hpick _))
      as (x & rest & Hpop & Hrest & Hperm & _).
    rewrite Hpop, (IH rest (s ++ [x]) Hrest).
    by rewrite <- app_assoc, (Permutation_app_comm [x] rest), Hperm.
Qed.

Lemma array_slice_clone {A : Type} (array : list A) :
  array_slice array 0 None = array.
Proof.
  unfold array_slice. rewrite relative_index_nonneg by lia.
  rewrite Z.min_l by lia. rewrite Z.sub_0_r, Nat2Z.id, drop_0.
  by rewrite take_ge.
Qed.

(** X21. Whatever indices the random draws give inside the part of the
    array not yet shuffled, [_.shuffle(array)] is a rearrangement of
    [array]: it has the same elements with the same multiplicities. *)
Theorem shuffle_permutation (array : list value) :
  (forall last, pick last <= last)%nat ->
  shuffle pick array ≡ₚ array.
Proof.
  intros Hpick. unfold shuffle. rewrite array_slice_clone.
  by rewrite shuffle_loop_permutation.
Qed.

Lemma shuffle_loop_shuffled (n : nat) :
  forall clonedArary shuffled : list value,
    shuffle_loop pick n clonedArary shuffled
    = shuffled ++ shuffle_loop pick n clonedArary [].
Proof.
  induction n as [|last IH]; intros c s; cbn [shuffle_loop].
  - by rewrite app_nil_r.
  - destruct (array_pop _) as [x c3].
    rewrite IH, (IH c3 ([] ++ [x])). by rewrite app_assoc.
Qed.

(** X22. The draw [Math.floor(Math.random() * last)] is below [last], so
    the first element of the result is taken from the elements before the
    last one: for an array of two or more elements, the element in the
    last position never comes first. *)
Theorem shuffle_last_never_first (front : list value) (t : value) :
  (pick (length front) < length front)%nat ->
  shuffle pick (front ++ [t]) !! 0%nat = front !! pick (length front).
Proof.
  intros Hpick. unfold shuffle. rewrite array_slice_clone.
  rewrite length_app; simpl.
  replace (length front + 1)%nat with (S (length front)) by lia.
  cbn [shuffle_loop].
  destruct (shuffle_iteration front t ltac:(lia))
    as (x & rest & Hpop & _ & _ & Hx).
  rewrite Hpop, shuffle_loop_shuffled. simpl. by rewrite Hx.
Qed.

End ShuffleFacts.

Section ObjectFacts.

Lemma extend_objects (obj : gmap string value)
    (sources : list (list (string * value))) :
  slice (map (map_to_list obj :: sources) (fun item => item)) 1 = sources.
Proof. by rewrite map_spec, list_fmap_id. Qed.

(** What the loops of [_.extend] make of [obj] for the pairs they visit:
    every pair overwrites. *)
Lemma extend_pairs (pairs : list (string * value)) :
  "__proto__" ∉ pairs.*1 ->
  forall obj : gmap string value,
    each_object pairs (fun obj value key => obj ← obj; assign obj key value)
      (Some obj)
    = Some (list_to_map (reverse pairs) ∪ obj).
Proof.
  unfold each_object.
  induction pairs as [|[k v] l IH]; intros Hk obj; simpl.
  - by rewrite (left_id_L ∅ (∪)).
  - rewrite fmap_cons, not_elem_of_cons in Hk. destruct Hk as [Hk Hl].
    unfold assign at 2. rewrite decide_False by done.
    rewrite (IH Hl). f_equal. unfold prop_set.
    rewrite reverse_cons, list_to_map_app. simpl.
    rewrite <- (assoc_L (∪)). f_equal.
    by rewrite insert_union_singleton_l, insert_empty.
Qed.

Lemma extend_union (obj : gmap string value)
    (sources : list (list (string * value))) :
  "__proto__" ∉ source_keys sources ->
  extend obj sources
  = Some (list_to_map (reverse (concat sources)) ∪ obj).
Proof.
  unfold extend, source_keys. rewrite extend_objects. unfold each.
  revert obj. induction sources as [|item l IH]; intros obj Hk; simpl.
  - by rewrite (left_id_L ∅ (∪)).
  - simpl in Hk. rewrite fmap_app, not_elem_of_app in Hk.
    destruct Hk as [Hitem Hl].
    rewrite (extend_pairs item Hitem), (IH _ Hl). f_equal.
    rewrite reverse_app, list_to_map_app.
    by rewrite (assoc_L (∪)).
Qed.

(** X23. [_.extend(obj, ...sources)] gives [obj] every property the
    sources hold: for a key that several of them hold the value of the last
    one is kept, and a key that none of them holds keeps the value it has
    in [obj]. *)
Theorem extend_last_source_wins (obj : gmap string value)
    (sources : list (list (string * value))) :
  "__proto__" ∉ source_keys sources ->
  extend obj sources
  = Some (list_to_map (reverse (concat sources)) ∪ obj).
Proof. apply extend_union. Qed.

(** What the loops of [_.defaults] make of [obj] for the pairs they visit:
    a pair is assigned only when [obj] lacks its key. *)
Lemma defaults_pairs (pairs : list (string * value)) :
  "__proto__" ∉ pairs.*1 ->
  "hasOwnProperty" ∉ pairs.*1 ->
  forall obj : gmap string value,
    obj !! "hasOwnProperty" = None ->
    each_object pairs
      (fun obj value key =>
         obj ← obj;
         own ← hasOwnProperty obj key;
         if negb own then assign obj key value else Some obj)
      (Some obj)
    = Some (obj ∪ list_to_map pairs).
Proof.
  unfold each_object.
  induction pairs as [|[k v] l IH]; intros Hp Hh obj Hobj; simpl.
  - by rewrite (right_id_L ∅ (∪)).
  - rewrite fmap_cons, not_elem_of_cons in Hp, Hh.
    destruct Hp as [Hp Hpl], Hh as [Hh Hhl]. simpl in Hp, Hh.
    unfold hasOwnProperty at 2. rewrite Hobj. simpl.
    destruct (obj !! k) as [w|] eqn:Hk.
    + rewrite bool_decide_eq_true_2 by eauto. simpl.
      rewrite (IH Hpl Hhl obj Hobj). f_equal.
      apply map_eq. intros j. rewrite !lookup_union.
      destruct (decide (j = k)) as [->|Hne].
      * by rewrite Hk, !union_Some_l.
      * by rewrite lookup_insert_ne.
    + rewrite bool_decide_eq_false_2 by (by intros [? ?]). simpl.
      unfold assign. rewrite decide_False by done. unfold prop_set.
      rewrite (IH Hpl Hhl); [|by rewrite lookup_insert_ne].
      f_equal. by rewrite <- insert_union_l, insert_union_r.
Qed.

Lemma defaults_union (obj : gmap string value)
    (sources : list (list (string * value))) :
  "__proto__" ∉ source_keys sources ->
  "hasOwnProperty" ∉ source_keys sources ->
  obj !! "hasOwnProperty" = None ->
  defaults obj sources = Some (obj ∪ list_to_map (concat sources)).
Proof.
  unfold defaults, source_keys. rewrite extend_objects. unfold each.
  revert obj. induction sources as [|item l IH]; intros obj Hp Hh Hobj; simpl.
  - by rewrite (right_id_L ∅ (∪)).
  - simpl in Hp, Hh. rewrite fmap_app, not_elem_of_app in Hp, Hh.
    destruct Hp as [Hp Hpl], Hh as [Hh Hhl].
    rewrite (defaults_pairs item Hp Hh obj Hobj), (IH _ Hpl Hhl).
    + f_equal. by rewrite list_to_map_app, (assoc_L (∪)).
    + apply lookup_union_None. split; [done|].
      by apply not_elem_of_list_to_map.
Qed.

(** X24. [_.defaults(obj, ...sources)] never overwrites: every property of
    [obj] keeps its value, and a key that [obj] lacks gets the value of the
    first source that holds it. *)
Theorem defaults_first_source_wins (obj : gmap string value)
    (sources : list (list (string * value))) :
  "__proto__" ∉ source_keys sources ->
  "hasOwnProperty" ∉ source_keys sources ->
  obj !! "hasOwnProperty" = None ->
  defaults obj sources = Some (obj ∪ list_to_map (concat sources)).
Proof. apply defaults_union. Qed.

(** X25. Repeating a call of [_.extend] or of [_.defaults] with the same
    sources on its result changes nothing, and neither does a call of
    [_.defaults] after [_.extend] with the same sources. *)
Theorem extend_defaults_idempotent (obj result : gmap string value)
    (sources : list (list (string * value))) :
  "__proto__" ∉ source_keys sources ->
  "hasOwnProperty" ∉ source_keys sources ->
  obj !! "hasOwnProperty" = None ->
  (extend obj sources = Some result ->
   extend result sources = Some result
   /\ defaults result sources = Some result)
  /\ (defaults obj sources = Some result ->
      defaults result sources = Some result).
Proof.
  intros Hp Hh Hobj.
  assert (forall pairs : list (string * value),
            "hasOwnProperty" ∉ pairs.*1 ->
            (list_to_map pairs : gmap string value) !! "hasOwnProperty"
            = None) as Hnone.
  { intros pairs Hk. by apply not_elem_of_list_to_map. }
  split.
  - rewrite extend_union by done. intros [= <-]. split.
    + rewrite extend_union by done. f_equal.
      by rewrite (assoc_L (∪)), (idemp_L (∪)).
    + rewrite defaults_union; [|done|done|].
      * f_equal. apply map_eq. intros j. rewrite !lookup_union.
        unfold source_keys in *.
        destruct (list_to_map (reverse (concat sources)) !! j) as [x|] eqn:Hr;
          destruct (obj !! j) as [y|] eqn:Ho;
          destruct (list_to_map (concat sources) !! j) as [z|] eqn:Hc;
          simpl; try done.
        apply not_elem_of_list_to_map in Hr.
        apply elem_of_list_to_map_2, (list_elem_of_fmap_2 fst) in Hc.
        destruct Hr. by rewrite fmap_reverse, elem_of_reverse.
      * apply lookup_union_None. split; [|done].
        apply Hnone. unfold source_keys in Hh.
        by rewrite fmap_reverse, elem_of_reverse.
  - rewrite defaults_union by done. intros [= <-].
    rewrite defaults_union; [|done|done|].
    + f_equal. by rewrite <- (assoc_L (∪)), (idemp_L (∪)).
    + apply lookup_union_None. split; [done|]. by apply Hnone.
Qed.

End ObjectFacts.

(** ** More on the decorators *)

Section DecoratorFacts.

Context {St : Type}.
Variable func : St -> value -> list value -> completion * St.
Variable timer_this : value.
Variable wait : Z.

(** X26. Whatever [func] does, the wrapper made by [_.once] runs it in
    every call until a call in which it returns, and never after: either
    every call of a sequence threw, and [func] ran in each, or the
    sequence is some calls that threw, then one in which [func] returned
    [v], then calls that all return [v], and [func] ran in the throwing
    calls and in the first returning one only. *)
Theorem once_runs_until_first_return (cs : list (value * list value)) :
  forall (h h' : host St) (rs : list completion) (env' : once_env),
    once_calls func once h cs = (rs, env', h') ->
    (exists es : list value,
        rs = Throw <$> es
        /\ env' = once
        /\ length es = length cs
        /\ length (calls h') = (length (calls h) + length cs)%nat)
    \/ (exists (es : list value) (v : value) (m : nat),
          rs = (Throw <$> es) ++ replicate (S m) (Normal v)
          /\ env' = {| alreadyCalled := true; result := v |}
          /\ length cs = (length es + S m)%nat
          /\ length (calls h') = (length (calls h) + length es + 1)%nat).
Proof.
  induction cs as [|[this args] cs IH]; intros h h' rs env' Hrun.
  - simpl in Hrun. injection Hrun as <- <- <-. left. exists []. 
    repeat split; simpl; lia.
  - cbn [once_calls] in Hrun.
    destruct (func (fstate h) this args) as [[v|e] s'] eqn:Hf.
    + unfold once_call, once in Hrun; cbn [alreadyCalled negb] in Hrun.
      rewrite (func_apply_eq func _ _ _ _ _ _ Hf) in Hrun.
      cbn [result] in Hrun. rewrite once_calls_latched in Hrun.
      injection Hrun as <- <- <-. right. exists [], v, (length cs).
      simpl. rewrite length_app. simpl. repeat split; lia.
    + unfold once_call at 1, once at 1 in Hrun;
        cbn [alreadyCalled negb] in Hrun.
      rewrite (func_apply_eq func _ _ _ _ _ _ Hf) in Hrun.
      fold once in Hrun.
      destruct (once_calls func once (logged Sync this args s' h) cs)
        as [[rs1 env1] h1] eqn:Hrest.
      injection Hrun as <- <- <-.
      destruct (IH _ _ _ _ Hrest) as
        [(es & -> & -> & Hlen & Hlog)|(es & v & m & -> & -> & Hlen & Hlog)];
        simpl in Hlog; rewrite length_app in Hlog; simpl in Hlog.
      * left. exists (e :: es). simpl. repeat split; try done; lia.
      * right. exists (e :: es), v, m. simpl. repeat split; try done; lia.
Qed.

Section TruthyResults.

(** [func] returns, and returns a truthy value, whatever its state and
    arguments. *)
Hypothesis func_truthy :
  forall (s : St) (this : value) (args : list value),
    exists (v : value) (s' : St),
      func s this args = (Normal v, s') /\ truthy v = true.

Lemma memoize_call_truthy (results results' : gmap string value)
    (this : value) (args : list value) (h h' : host St) (c : completion) :
  memoize_call func results this args h = (c, results', h') ->
  truthy (prop_get results' (cache_key args)) = true
  /\ (calls h' = calls h
      \/ truthy (prop_get results (cache_key args)) = false
         /\ calls h' = calls h ++ [Invocation (clock h) Sync this args]).
Proof.
  intros Hcall.
  destruct (truthy (prop_get results (cache_key args))) eqn:Ht.
  - rewrite (memoize_call_hit func _ _ _ _ Ht) in Hcall.
    injection Hcall as <- <- <-. split; [done|by left].
  - destruct (func_truthy (fstate h) this args) as (v & s' & Hf & Hv).
    rewrite (memoize_call_miss func _ _ _ _ _ _ Ht Hf) in Hcall.
    injection Hcall as <- <- <-. rewrite prop_get_set_eq.
    split; [done|]. right. by split.
Qed.

(** X27. For a function that always returns a truthy value, the wrapper
    made by [_.memoize] runs it at most once for each key over any
    sequence of calls, and not at all for a key whose entry already reads
    truthy. *)
Theorem memoize_computes_each_key_once (cs : list (value * list value)) :
  forall (results results' : gmap string value) (h h' : host St)
         (rs : list completion),
    memoize_calls func results h cs = (rs, results', h') ->
    exists new : list invocation,
      calls h' = calls h ++ new
      /\ forall k : string,
           (length (computed_for k new) <= 1)%nat
           /\ (truthy (prop_get results k) = true -> computed_for k new = []).
Proof.
  induction cs as [|[this args] cs IH]; intros results results' h h' rs Hrun.
  - simpl in Hrun. injection Hrun as <- <- <-. exists [].
    split; [by rewrite app_nil_r|]. intros k. split; [simpl; lia|done].
  - cbn [memoize_calls] in Hrun.
    destruct (memoize_call func results this args h) as [[c r1] h1] eqn:Hcall.
    destruct (memoize_calls func r1 h1 cs) as [[rs' r2] h2] eqn:Hrest.
    injection Hrun as <- <- <-.
    destruct (IH _ _ _ _ _ Hrest) as (new & Hnew & Hk).
    destruct (memoize_call_truthy _ _ _ _ _ _ _ Hcall)
      as [Hafter [Hsame|[Hmiss Hlog]]].
    + exists new. split; [by rewrite Hnew, Hsame|].
      intros k. split; [apply Hk|]. intros Ht. apply Hk.
      by rewrite (memoize_call_keeps_truthy func k _ _ _ _ _ _ _ Ht Hcall).
    + exists (Invocation (clock h) Sync this args :: new).
      split; [by rewrite Hnew, Hlog, <- app_assoc|].
      intros k. unfold computed_for in *. rewrite filter_cons. simpl.
      destruct (decide (cache_key args = k)) as [<-|Hne].
      * rewrite (proj2 (Hk _) Hafter). split; [simpl; lia|].
        intros Ht. congruence.
      * split; [apply Hk|]. intros Ht. apply Hk.
        by rewrite (memoize_call_keeps_truthy func k _ _ _ _ _ _ _ Ht Hcall).
Qed.

End TruthyResults.

Local Abbreviation step2 := (step func timer_this wait).
Local Abbreviation run2 := (run func timer_this wait).

Lemma requests_cons (ev : event) (evs : list event) :
  requests (ev :: evs)
  = ((if is_request ev then 1 else 0) + requests evs)%nat.
Proof.
  unfold requests. rewrite filter_cons. by destruct (is_request ev).
Qed.

Lemma run_executions_bounded (evs : list event) :
  forall (env env' : throttle_env) (h h' : host St),
    run2 evs (env, h) = Some (env', h') ->
    (length (calls h') + size (pending h')
     <= length (calls h) + size (pending h) + requests evs)%nat.
Proof.
  induction evs as [|ev evs IH]; intros env env' h h' Hrun; cbn [run] in Hrun.
  - injection Hrun as <- <-. unfold requests. simpl. lia.
  - destruct (step2 ev (env, h)) as [[env1 h1]|] eqn:Hstep; [|done].
    apply step_turn in Hstep. specialize (IH _ _ _ _ Hrun).
    rewrite requests_cons.
    enough (length (calls h1) + size (pending h1)
            <= length (calls h) + size (pending h)
               + (if is_request ev then 1 else 0))%nat by lia.
    clear IH Hrun.
    assert (forall (m : gmap nat timer_entry) i e,
              (size (<[i := e]> m) <= S (size m))%nat) as Hins.
    { intros m i e. destruct (m !! i) eqn:Hi.
      - rewrite map_size_insert_Some by eauto. lia.
      - rewrite map_size_insert_None by done. lia. }
    assert (forall (m : gmap nat timer_entry) i e,
              m !! i = Some e -> (S (size (delete i m)) = size m)%nat) as Hdel.
    { intros m i e Hi. rewrite map_size_delete, Hi. simpl.
      pose proof (map_size_ne_0_lookup_2 m i ltac:(eauto)). lia. }
    destruct Hstep as
      [this args Hc|this args c s' Hc Hf|func_ref w rest
      |id t args c s' Hpd Htd Hf|id t now c s' Hpd Htd Hf|dt Hdt];
      simpl; rewrite ?length_app; simpl.
    + rewrite clearTimeout_calls.
      pose proof (Hins (pending (clearTimeout (timer env) h))
                    (next_id (clearTimeout (timer env) h))
                    (TimerEntry (clock (clearTimeout (timer env) h)
                                 + Z.max 0 (to_int32 wait))
                       (TrailingCb (clock h)))).
      assert (size (pending (clearTimeout (timer env) h)) <= size (pending h))%nat.
      { destruct (timer env) as [i|]; simpl; [|lia].
        rewrite map_size_delete. destruct (pending h !! i); simpl; lia. }
      lia.
    + lia.
    + pose proof (Hins (pending h) (next_id h)
                    (TimerEntry (clock h + Z.max 0 (to_int32 w))
                       (DelayCb rest))). lia.
    + pose proof (Hdel _ _ _ Hpd). lia.
    + pose proof (Hdel _ _ _ Hpd). lia.
    + lia.
Qed.

(** X28. In a run from a fresh host, [func] has run at most as many times
    as the throttled wrapper and [_.delay] were called; more precisely the
    executions and the timers still pending together do not exceed the
    number of those calls. *)
Theorem executions_bounded_by_requests (s : St) (t : Z) (evs : list event)
    (env : throttle_env) (h : host St) :
  run2 evs (throttle, fresh_host s t) = Some (env, h) ->
  (length (calls h) + size (pending h) <= requests evs)%nat.
Proof.
  intros Hrun. apply run_executions_bounded in Hrun. simpl in Hrun.
  rewrite map_size_empty in Hrun. lia.
Qed.

Lemma run_calls_apart (reqs : list (value * list value * Z)) :
  (forall r, r ∈ reqs -> 0 <= r.2 /\ wait <= r.2) ->
  forall (env : throttle_env) (h : host St),
    cooling (lastTrigger env) (clock h) wait = false ->
    exists (env' : throttle_env) (h' : host St),
      run2 (calls_apart reqs) (env, h) = Some (env', h')
      /\ (fun i => (inv_origin i, inv_this i, inv_args i)) <$> calls h'
         = ((fun i => (inv_origin i, inv_this i, inv_args i)) <$> calls h)
           ++ ((fun r => (Sync, r.1.1, r.1.2)) <$> reqs)
      /\ pending h' = pending h.
Proof.
  induction reqs as [|[[this args] dt] reqs IH]; intros Hreqs env h Hcool.
  - exists env, h. simpl. by rewrite app_nil_r.
  - destruct (Hreqs (this, args, dt) ltac:(left)) as [Hdt Hwait].
    simpl in Hdt, Hwait.
    destruct (func (fstate h) this args) as [c s'] eqn:Hf.
    change (calls_apart ((this, args, dt) :: reqs))
      with (Call this args :: Tick dt :: calls_apart reqs).
    cbn [run].
    rewrite (turn_step func timer_this wait _ _ _ _ _
               (turn_immediate func timer_this wait env h this args c s'
                  Hcool Hf)).
    rewrite (turn_step func timer_this wait _ _ _ _ _
               (turn_tick func timer_this wait _ _ dt Hdt)).
    edestruct (IH ltac:(intros r Hr; apply Hreqs; by right)) as
      (env' & h' & Hrun & Hlog & Hpend); [|exists env', h'; split; [exact Hrun|]].
    + unfold cooling. cbn [lastTrigger].
      apply andb_false_iff. right. apply Z.ltb_ge. simpl. lia.
    + split; [|by rewrite Hpend].
      rewrite Hlog. simpl. rewrite fmap_app. simpl.
      by rewrite <- app_assoc.
Qed.

(** X29. When every call of the throttled wrapper comes at least [wait]
    after the one before, every call runs [func] at once, with the [this]
    and the arguments of the call, and no timer is set. *)
Theorem throttle_spaced_calls_run_at_once
    (reqs : list (value * list value * Z)) (s : St) (t : Z) :
  (forall r, r ∈ reqs -> 0 <= r.2 /\ wait <= r.2) ->
  exists (env : throttle_env) (h : host St),
    run2 (calls_apart reqs) (throttle, fresh_host s t) = Some (env, h)
    /\ (fun i => (inv_origin i, inv_this i, inv_args i)) <$> calls h
       = (fun r => (Sync, r.1.1, r.1.2)) <$> reqs
    /\ pending h = ∅.
Proof.
  intros Hreqs.
  destruct (run_calls_apart reqs Hreqs throttle (fresh_host s t) eq_refl)
    as (env & h & Hrun & Hlog & Hpend).
  by exists env, h.
Qed.

End DecoratorFacts.

(** ** The further theorems at concrete inputs *)

(** Closes [k ∉ source_keys sources] for explicit sources. *)
Ltac no_such_key :=
  let H := fresh "H" in
  unfold source_keys; simpl; intros H;
  repeat (apply elem_of_cons in H as [H|H]; [discriminate H|]);
  by apply elem_of_nil in H.

Lemma first_last_split_witness :
  exists (front back : list value),
    first [VNum 1; VNum 2; VNum 3] (Some 1) = Elements front
    /\ last [VNum 1; VNum 2; VNum 3] (Some 2) = Elements back
    /\ front ++ back = [VNum 1; VNum 2; VNum 3]
    /\ length front = 1%nat.
Proof.
  apply (first_last_split [VNum 1; VNum 2; VNum 3] 1). simpl. lia.
Defined.

Lemma first_last_negative_witness :
  first [VNum 1; VNum 2; VNum 3] (Some (-1)) = Elements [VNum 1; VNum 2]
  /\ last [VNum 1; VNum 2; VNum 3] (Some (-1)) = Elements [VNum 2; VNum 3]
  /\ last [VNum 1; VNum 2; VNum 3] (Some 0) = Elements [].
Proof.
  apply (first_last_negative [VNum 1; VNum 2; VNum 3] (-1)). lia.
Defined.

Lemma reduce_is_fold_witness :
  reduce [VNum 1; VNum 2; VNum 3] add_numbers (VNum 10)
  = each_indexed [VNum 1; VNum 2; VNum 3] add_numbers (VNum 10)
  /\ reduce [VNum 10; VNum 1; VNum 2; VNum 3] add_numbers VUndefined
     = each_indexed [VNum 1; VNum 2; VNum 3]
         (fun acc item index => add_numbers acc item (1 + index)) (VNum 10).
Proof.
  apply (reduce_is_fold [VNum 1; VNum 2; VNum 3] add_numbers (VNum 10)).
  - intros acc item index. unfold add_numbers. by destruct acc, item.
  - done.
Defined.

Lemma zip_zip_square_witness :
  exists rows : list (list value),
    zip [[VNum 1; VNum 2]; [VStr "a"; VStr "b"]] = Some <$> rows
    /\ zip rows = Some <$> [[VNum 1; VNum 2]; [VStr "a"; VStr "b"]].
Proof.
  apply (zip_zip_square [[VNum 1; VNum 2]; [VStr "a"; VStr "b"]]).
  intros array Ha.
  apply elem_of_cons in Ha as [->|Ha]; [reflexivity|].
  apply elem_of_cons in Ha as [->|Ha]; [reflexivity|].
  by apply elem_of_nil in Ha.
Defined.

Lemma shuffle_permutation_witness :
  shuffle (fun _ => 0%nat) [VNum 1; VNum 2; VNum 3]
  ≡ₚ [VNum 1; VNum 2; VNum 3].
Proof.
  apply (shuffle_permutation (fun _ => 0%nat) [VNum 1; VNum 2; VNum 3]).
  intros last. lia.
Defined.

Lemma shuffle_last_never_first_witness :
  shuffle (fun _ => 0%nat) ([VNum 1; VNum 2] ++ [VNum 3]) !! 0%nat
  = [VNum 1; VNum 2] !! 0%nat.
Proof.
  apply (shuffle_last_never_first (fun _ => 0%nat) [VNum 1; VNum 2] (VNum 3)).
  simpl. lia.
Defined.

Lemma extend_last_source_wins_witness :
  extend {["a" := VNum 1]}
    [[("a", VNum 2); ("b", VNum 3)]; [("b", VNum 4)]]
  = Some (list_to_map
            (reverse (concat [[("a", VNum 2); ("b", VNum 3)];
                             [("b", VNum 4)]]))
          ∪ {["a" := VNum 1]}).
Proof.
  apply (extend_last_source_wins {["a" := VNum 1]}
           [[("a", VNum 2); ("b", VNum 3)]; [("b", VNum 4)]]).
  no_such_key.
Defined.

Lemma defaults_first_source_wins_witness :
  defaults {["a" := VNum 1]}
    [[("a", VNum 2); ("b", VNum 3)]; [("b", VNum 4)]]
  = Some ({["a" := VNum 1]}
          ∪ list_to_map (concat [[("a", VNum 2); ("b", VNum 3)];
                                 [("b", VNum 4)]])).
Proof.
  apply (defaults_first_source_wins {["a" := VNum 1]}
           [[("a", VNum 2); ("b", VNum 3)]; [("b", VNum 4)]]).
  - no_such_key.
  - no_such_key.
  - reflexivity.
Defined.

Lemma extend_defaults_idempotent_witness :
  (extend {["a" := VNum 1]} [[("b", VNum 3)]]
   = Some {["a" := VNum 1; "b" := VNum 3]}
   /\ defaults {["a" := VNum 1]} [[("b", VNum 3)]]
      = Some {["a" := VNum 1; "b" := VNum 3]})
  /\ (extend {["a" := VNum 1]} [[("b", VNum 3)]]
      = Some {["a" := VNum 1; "b" := VNum 3]} ->
      extend {["a" := VNum 1; "b" := VNum 3]} [[("b", VNum 3)]]
      = Some {["a" := VNum 1; "b" := VNum 3]}
      /\ defaults {["a" := VNum 1; "b" := VNum 3]} [[("b", VNum 3)]]
         = Some {["a" := VNum 1; "b" := VNum 3]})
  /\ (defaults {["a" := VNum 1]} [[("b", VNum 3)]]
      = Some {["a" := VNum 1; "b" := VNum 3]} ->
      defaults {["a" := VNum 1; "b" := VNum 3]} [[("b", VNum 3)]]
      = Some {["a" := VNum 1; "b" := VNum 3]}).
Proof.
  split; [split; vm_compute; reflexivity|].
  apply (extend_defaults_idempotent {["a" := VNum 1]}
           {["a" := VNum 1; "b" := VNum 3]} [[("b", VNum 3)]]).
  - no_such_key.
  - no_such_key.
  - reflexivity.
Defined.

Lemma once_runs_until_first_return_witness :
  (exists es : list value,
      [Throw (VStr "not yet"); Throw (VStr "not yet");
       Normal (VNum 2); Normal (VNum 2)] = Throw <$> es
      /\ {| alreadyCalled := true; result := VNum 2 |} = once
      /\ length es = 4%nat
      /\ length (calls (logged Sync VUndefined [] 3%nat
                          (logged Sync VUndefined [] 2%nat
                             (logged Sync VUndefined [] 1%nat
                                (fresh_host 0%nat 0)))))
         = (length (calls (fresh_host 0%nat 0)) + 4)%nat)
  \/ (exists (es : list value) (v : value) (m : nat),
        [Throw (VStr "not yet"); Throw (VStr "not yet");
         Normal (VNum 2); Normal (VNum 2)]
        = (Throw <$> es) ++ replicate (S m) (Normal v)
        /\ {| alreadyCalled := true; result := VNum 2 |}
           = {| alreadyCalled := true; result := v |}
        /\ 4%nat = (length es + S m)%nat
        /\ length (calls (logged Sync VUndefined [] 3%nat
                            (logged Sync VUndefined [] 2%nat
                               (logged Sync VUndefined [] 1%nat
                                  (fresh_host 0%nat 0)))))
           = (length (calls (fresh_host 0%nat 0)) + length es + 1)%nat).
Proof.
  apply (once_runs_until_first_return flaky
           [plain_call []; plain_call []; plain_call []; plain_call []]
           (fresh_host 0%nat 0)).
  reflexivity.
Defined.

Lemma memoize_computes_each_key_once_witness :
  exists new : list invocation,
    calls (logged Sync VUndefined [VNum 5] tt (fresh_host tt 0))
    = calls (fresh_host tt 0) ++ new
    /\ forall k : string,
         (length (computed_for k new) <= 1)%nat
         /\ (truthy (prop_get memoize k) = true -> computed_for k new = []).
Proof.
  apply (memoize_computes_each_key_once (returning (VNum 1))
           (fun s this args =>
              ex_intro _ (VNum 1)
                (ex_intro _ s (conj eq_refl eq_refl)))
           same_key_twice memoize {["5" := VNum 1]}
           (fresh_host tt 0)
           (logged Sync VUndefined [VNum 5] tt (fresh_host tt 0))
           [Normal (VNum 1); Normal (VNum 1)]).
  vm_compute. reflexivity.
Defined.

Lemma executions_bounded_by_requests_witness :
  (length (calls after_call_in_cooldown.2)
   + size (pending after_call_in_cooldown.2)
   <= requests call_in_cooldown)%nat.
Proof.
  apply (executions_bounded_by_requests first_argument window 100 tt 1000
           call_in_cooldown after_call_in_cooldown.1
           after_call_in_cooldown.2).
  vm_compute. reflexivity.
Defined.

Lemma throttle_spaced_calls_run_at_once_witness :
  exists (env : throttle_env) (h : host unit),
    run first_argument window 100
      (calls_apart [(VUndefined, [VStr "a"], 150);
                    (VUndefined, [VStr "b"], 100)])
      (throttle, fresh_host tt 1000) = Some (env, h)
    /\ (fun i => (inv_origin i, inv_this i, inv_args i)) <$> calls h
       = (fun r : value * list value * Z => (Sync, r.1.1, r.1.2))
           <$> [(VUndefined, [VStr "a"], 150);
                (VUndefined, [VStr "b"], 100)]
    /\ pending h = ∅.
Proof.
  apply (throttle_spaced_calls_run_at_once first_argument window 100
           [(VUndefined, [VStr "a"], 150); (VUndefined, [VStr "b"], 100)]
           tt 1000).
  intros r Hr.
  apply elem_of_cons in Hr as [->|Hr]; [simpl; lia|].
  apply elem_of_cons in Hr as [->|Hr]; [simpl; lia|].
  by apply elem_of_nil in Hr.
Defined.
